(** * mcp-server-go: protocol codec, context store and message dispatch

    A shallow embedding of the three packages that carry the logic of the
    server:

    - [protocol] (Parse, Format, ValidateMessageType),
    - [state]    (ContextStore and its operations),
    - [server]   (handleMessage, handlePing, handleContextUpdate, Send),
      the connection handler of package main.

    Go strings are byte sequences; they are modelled by [string], whose
    characters are the 256 byte values.  Go maps are modelled by [gmap].
    The order in which a Go [range] loop visits a map is left open by the
    language: every function that ranges over a map has a version, named
    with [In], that takes the visiting order as an argument, and the
    theorems quantify over all orders. *)

From Stdlib Require Import Ascii String DecimalString.
From stdpp Require Import gmap strings list fin_maps.

Open Scope string_scope.
Open Scope list_scope.

#[local] Arguments append !s1 s2 / : simpl nomatch.

(* ===================================================================== *)
(** ** The parts of the Go standard library that the code calls          *)
(* ===================================================================== *)

Module Strings.

(** The numeric value of a byte. *)
Definition code (c : ascii) : N := Ascii.N_of_ascii c.

(** Go's [asciiSpace] table: tab, line feed, vertical tab, form feed,
    carriage return and space. *)
Definition asciiSpace (c : ascii) : bool :=
  ((9 <=? code c) && (code c <=? 13) || (code c =? 32))%N.

(** [unicode.IsSpace] on the runes that take two bytes in UTF-8:
    U+0085 (C2 85) and U+00A0 (C2 A0). *)
Definition isSpace2 (a b : ascii) : bool :=
  ((code a =? 0xC2) && ((code b =? 0x85) || (code b =? 0xA0)))%N.

(** [unicode.IsSpace] on the runes that take three bytes in UTF-8:
    U+1680 (E1 9A 80), U+2000..U+200A (E2 80 80..8A), U+2028, U+2029,
    U+202F (E2 80 A8, A9, AF), U+205F (E2 81 9F), U+3000 (E3 80 80). *)
Definition isSpace3 (a b c : ascii) : bool :=
  (((code a =? 0xE1) && (code b =? 0x9A) && (code c =? 0x80))
   || ((code a =? 0xE2) && (code b =? 0x80)
       && (((0x80 <=? code c) && (code c <=? 0x8A))
           || (code c =? 0xA8) || (code c =? 0xA9) || (code c =? 0xAF)))
   || ((code a =? 0xE2) && (code b =? 0x81) && (code c =? 0x9F))
   || ((code a =? 0xE3) && (code b =? 0x80) && (code c =? 0x80)))%N.

(** The ASCII bytes that are not white space; among them the three
    separators of the protocol. *)
Definition plain (c : ascii) : bool :=
  ((code c <? 128)%N && negb (asciiSpace c)).

(** One scan serves both ends of a string.  [dropSpace sp1 sp2 sp3 s]
    removes from the front of [s] every byte accepted by [sp1], every
    two bytes accepted by [sp2] and every three bytes accepted by [sp3],
    and stops at the first byte that starts none of these: any other
    rune, or an invalid byte, which Go decodes as U+FFFD, one byte
    wide. *)
Section Scan.
Variable sp1 : ascii → bool.
Variable sp2 : ascii → ascii → bool.
Variable sp3 : ascii → ascii → ascii → bool.

Fixpoint dropSpace (s : string) : string :=
  match s with
  | "" => ""
  | String a s1 =>
      if sp1 a then dropSpace s1 else
      match s1 with
      | "" => s
      | String b s2 =>
          if sp2 a b then dropSpace s2 else
          match s2 with
          | "" => s
          | String c s3 => if sp3 a b c then dropSpace s3 else s
          end
      end
  end.
End Scan.

(** Removal of the white space runes at the front of [s]. *)
Definition TrimLeft (s : string) : string :=
  dropSpace asciiSpace isSpace2 isSpace3 s.

(** The same scan on the reversed string, where the bytes of an
    encoding are met last byte first. *)
Definition trimRev (s : string) : string :=
  dropSpace asciiSpace (λ c b, isSpace2 b c) (λ c b a, isSpace3 a b c) s.

(** Removal of the white space runes at the end of [s]. *)
Definition TrimRight (s : string) : string :=
  String.rev (trimRev (String.rev s)).

(** [strings.TrimSpace]: leading and trailing white space, as defined by
    Unicode, removed. *)
Definition TrimSpace (s : string) : string := TrimRight (TrimLeft s).

(** [strings.Cut] for a separator of one byte: the text before and after
    the first occurrence of [sep], if there is one. *)
Fixpoint Cut (s : string) (sep : ascii) : option (string * string) :=
  match s with
  | "" => None
  | String c r =>
      if decide (c = sep) then Some ("", r)
      else match Cut r sep with
           | Some (before, after) => Some (String c before, after)
           | None => None
           end
  end.

(** [strings.SplitN(s, sep, n)] for [n >= 0] and a separator of one
    byte: at most [n] pieces, the last one being the unsplit rest. *)
Fixpoint SplitN (s : string) (sep : ascii) (n : nat) : list string :=
  match n with
  | 0 => []
  | 1 => [s]
  | S n' =>
      match Cut s sep with
      | Some (before, after) => before :: SplitN after sep n'
      | None => [s]
      end
  end.

(** [strings.Split(s, sep)] for a separator of one byte: all the pieces
    between occurrences of [sep]; one more piece than separators. *)
Fixpoint Split (s : string) (sep : ascii) : list string :=
  match s with
  | "" => [""]
  | String c r =>
      if decide (c = sep) then "" :: Split r sep
      else match Split r sep with
           | piece :: pieces => String c piece :: pieces
           | [] => [String c ""]
           end
  end.

(** [strings.Join(elems, sep)]. *)
Fixpoint Join (elems : list string) (sep : string) : string :=
  match elems with
  | [] => ""
  | [e] => e
  | e :: rest => e +:+ sep +:+ Join rest sep
  end.

(** [strings.IndexByte(s, c) >= 0]. *)
Fixpoint ContainsByte (s : string) (c : ascii) : bool :=
  match s with
  | "" => false
  | String a r => bool_decide (a = c) || ContainsByte r c
  end.

(** [strings.ContainsAny(s, chars)] for [chars] made of ASCII bytes. *)
Fixpoint ContainsAny (s chars : string) : bool :=
  match chars with
  | "" => false
  | String c r => ContainsByte s c || ContainsAny s r
  end.

End Strings.

Module Fmt.

(** [fmt.Sprintf("%d", n)]: the decimal numeral of [n], with a minus
    sign when negative. *)
Definition Sprintf_d (n : Z) : string :=
  NilZero.string_of_int (Z.to_int n).

(** [fmt.Sprintf("%s=%s", a, b)]. *)
Definition Sprintf_s_eq_s (a b : string) : string := a +:+ "=" +:+ b.

(** [fmt.Sprintf("%s:%s", a, b)]. *)
Definition Sprintf_s_colon_s (a b : string) : string := a +:+ ":" +:+ b.

End Fmt.

(** The orders in which a [range] loop may visit the entries of a map:
    each entry once, in any order. *)
Definition range_order {A} (m : gmap string A) (order : list (string * A)) : Prop :=
  order ≡ₚ map_to_list m.

(* ===================================================================== *)
(** ** package protocol                                                   *)
(* ===================================================================== *)

Module protocol.
Import Strings.

Definition TypePing : string := "PING".
Definition TypePong : string := "PONG".
Definition TypeContext : string := "CONTEXT".
Definition TypeAck : string := "ACK".
Definition TypeError : string := "ERROR".

(** [Type] is a keyword of Rocq: the field is named [Type_]. *)
Record Message := mkMessage {
  Type_ : string;
  Params : gmap string string
}.

(** A nil map and an empty map are both [∅]. *)
Definition NewMessage (msgType : string) (params : gmap string string) : Message :=
  {| Type_ := msgType; Params := params |}.

(** The errors of [Parse], one constructor per [fmt.Errorf] call.  The
    specification calls all of them MalformedMessage. *)
Inductive ParseError :=
| ErrEmptyMessage
| ErrMissingTypeSeparator
| ErrMissingType
| ErrInvalidParameterFormat (pair : string)
| ErrEmptyParameterKey.

Inductive result (A : Type) :=
| Ok (a : A)
| Err (e : ParseError).
Arguments Ok {A} a.
Arguments Err {A} e.

Definition bind {A B} (r : result A) (f : A → result B) : result B :=
  match r with
  | Ok a => f a
  | Err e => Err e
  end.

(** The body of the loop over [paramPairs]. *)
Definition parsePair (params : gmap string string) (pair : string)
  : result (gmap string string) :=
  match SplitN pair "=" 2 with
  | [k; v] =>
      let key := TrimSpace k in
      let value := TrimSpace v in
      if decide (key = "") then Err ErrEmptyParameterKey
      else Ok (<[key := value]> params)
  | _ => Err (ErrInvalidParameterFormat pair)
  end.

(** The loop over [paramPairs], left to right, leaving at the first
    error. *)
Fixpoint parsePairs (paramPairs : list string) (params : gmap string string)
  : result (gmap string string) :=
  match paramPairs with
  | [] => Ok params
  | pair0 :: rest => bind (parsePair params pair0) (parsePairs rest)
  end.

(** The parameter section: nothing to do when it is empty. *)
Definition parseParams (section : string) : result (gmap string string) :=
  if decide (section = "") then Ok ∅
  else parsePairs (Split section ";") ∅.

Definition Parse (raw : string) : result Message :=
  let raw := TrimSpace raw in
  if decide (raw = "") then Err ErrEmptyMessage
  else
    match SplitN raw ":" 2 with
    | [part0; part1] =>
        let msgType := TrimSpace part0 in
        if decide (msgType = "") then Err ErrMissingType
        else bind (parseParams part1)
                  (λ params, Ok {| Type_ := msgType; Params := params |})
    | _ => Err ErrMissingTypeSeparator
    end.

(** [Format] with the order of the [range] loop over [m.Params] given. *)
Definition FormatIn (order : list (string * string)) (m : Message) : string :=
  let params := map (λ kv, Fmt.Sprintf_s_eq_s kv.1 kv.2) order in
  let paramStr := Join params ";" in
  Fmt.Sprintf_s_colon_s (Type_ m) paramStr.

(** [Format] in one of its possible orders. *)
Definition Format (m : Message) : string :=
  FormatIn (map_to_list (Params m)) m.

Definition validTypes : gmap string bool :=
  <[TypePing := true]> (<[TypePong := true]> (<[TypeContext := true]>
    (<[TypeAck := true]> (<[TypeError := true]> ∅)))).

Definition ValidateMessageType (msgType : string) : bool :=
  match validTypes !! msgType with
  | Some _ => true
  | None => false
  end.

End protocol.

(* ===================================================================== *)
(** ** package state                                                      *)
(* ===================================================================== *)

Module state.

Record ClientContext := mkClientContext {
  Values : gmap string string
}.

(** [contexts] holds pointers to [ClientContext]s.  Every such pointer
    is allocated by [Set] or [SetMultiple] at the moment it is stored
    under its client identifier and is never handed out ([GetAll]
    copies), so no two identifiers share a context: the map of pointers
    is a map of contexts.  The mutex has no sequential behaviour. *)
Record ContextStore := mkContextStore {
  contexts : gmap string ClientContext
}.

Definition NewContextStore : ContextStore := {| contexts := ∅ |}.

Definition Get (s : ContextStore) (clientID key : string) : string * bool :=
  match contexts s !! clientID with
  | None => ("", false)
  | Some client =>
      match Values client !! key with
      | Some val => (val, true)
      | None => ("", false)
      end
  end.

(** The loop [for k, v := range m { result[k] = v }]. *)
Definition assignAll (result : gmap string string) (order : list (string * string))
  : gmap string string :=
  foldl (λ acc kv, <[kv.1 := kv.2]> acc) result order.

(** [GetAll]: the copy is built by [assignAll]; a nil map is [∅]. *)
Definition GetAll (s : ContextStore) (clientID : string) : gmap string string * bool :=
  match contexts s !! clientID with
  | None => (∅, false)
  | Some client => (assignAll ∅ (map_to_list (Values client)), true)
  end.

(** The context of [clientID], created empty when there is none. *)
Definition clientOrNew (s : ContextStore) (clientID : string) : ClientContext :=
  match contexts s !! clientID with
  | Some client => client
  | None => {| Values := ∅ |}
  end.

(** [Set] is a keyword of Rocq: the operation is named [Set_]. *)
Definition Set_ (s : ContextStore) (clientID key value : string) : ContextStore :=
  let client := clientOrNew s clientID in
  {| contexts :=
       <[clientID := {| Values := <[key := value]> (Values client) |}]> (contexts s) |}.

(** [SetMultiple] with the order of the loop over [values] given. *)
Definition SetMultipleIn (order : list (string * string)) (s : ContextStore)
    (clientID : string) : ContextStore :=
  let client := clientOrNew s clientID in
  {| contexts :=
       <[clientID := {| Values := assignAll (Values client) order |}]> (contexts s) |}.

Definition SetMultiple (s : ContextStore) (clientID : string)
    (values : gmap string string) : ContextStore :=
  SetMultipleIn (map_to_list values) s clientID.

Definition Remove (s : ContextStore) (clientID key : string) : ContextStore :=
  match contexts s !! clientID with
  | None => s
  | Some client =>
      {| contexts :=
           <[clientID := {| Values := delete key (Values client) |}]> (contexts s) |}
  end.

Definition Clear (s : ContextStore) (clientID : string) : ContextStore :=
  {| contexts := delete clientID (contexts s) |}.

(** [ListClients] with the order of the loop over [s.contexts] given. *)
Definition ListClientsIn (order : list (string * ClientContext)) : list string :=
  foldl (λ clients entry, clients ++ [entry.1]) [] order.

Definition ListClients (s : ContextStore) : list string :=
  ListClientsIn (map_to_list (contexts s)).

(** [QueryClients] with the order of the loop over [s.contexts] given. *)
Definition QueryClientsIn (order : list (string * ClientContext))
    (key value : string) : list string :=
  foldl (λ matches entry,
           match Values entry.2 !! key with
           | Some v => if decide (v = value) then matches ++ [entry.1] else matches
           | None => matches
           end) [] order.

Definition QueryClients (s : ContextStore) (key value : string) : list string :=
  QueryClientsIn (map_to_list (contexts s)) key value.

End state.

(* ===================================================================== *)
(** ** package main: the connection handler                               *)
(* ===================================================================== *)

Module server.
Import protocol.

(** A connection as its handler sees it: its identifier, the store it
    shares with the other connections, and the socket, of which the
    handler's side is the sequence of [Write] calls made so far (oldest
    first).  The logger is a sink and is left out. *)
Record Connection := mkConnection {
  id : string;
  store : state.ContextStore;
  conn : list string
}.

Definition newline : string := String "010" "".

(** [Send]: one [Write] of the formatted message and a newline.  A
    failed write is only logged.  The messages the handler sends have
    one parameter, so [Format] has one possible order. *)
Definition Send (c : Connection) (msg : Message) : Connection :=
  let formatted := Format msg in
  {| id := id c; store := store c; conn := conn c ++ [formatted +:+ newline] |}.

(** [now] is [time.Now().Unix()]. *)
Definition handlePing (now : Z) (c : Connection) (msg : Message) : Connection :=
  let response := NewMessage TypePong {["time" := Fmt.Sprintf_d now]} in
  Send c response.

(** The loop [for key, value := range msg.Params { c.store.Set(...) }]. *)
Definition setAll (c : Connection) (order : list (string * string)) : Connection :=
  foldl (λ c kv,
           {| id := id c;
              store := state.Set_ (store c) (id c) kv.1 kv.2;
              conn := conn c |}) c order.

(** [handleContextUpdate] with the order of the loop over [msg.Params]
    given. *)
Definition handleContextUpdateIn (order : list (string * string))
    (c : Connection) (msg : Message) : Connection :=
  let c := setAll c order in
  let response := NewMessage TypeAck {["status" := "ok"]} in
  Send c response.

Definition handleMessageIn (now : Z) (order : list (string * string))
    (c : Connection) (msg : Message) : Connection :=
  if decide (Type_ msg = TypePing) then handlePing now c msg
  else if decide (Type_ msg = TypeContext) then handleContextUpdateIn order c msg
  else c.

Definition handleMessage (now : Z) (c : Connection) (msg : Message) : Connection :=
  handleMessageIn now (map_to_list (Params msg)) c msg.

(** One turn of the loop of [Handle], once a line has been read: a line
    that [Parse] refuses is logged and the loop goes on; any other line
    is handed to [handleMessage]. *)
Definition handleLine (now : Z) (c : Connection) (line : string) : Connection :=
  match Parse line with
  | Err _ => c
  | Ok msg => handleMessage now c msg
  end.

(** The loop of [Handle] over the lines that [reader.ReadString] returns
    before the first read error or the close signal ends it; each line
    comes with the clock at the time it is handled. *)
Definition handleLines (reads : list (Z * string)) (c : Connection) : Connection :=
  foldl (λ c r, handleLine r.1 c r.2) c reads.

End server.

(* ===================================================================== *)
(** ** Vocabulary of the statements                                       *)
(* ===================================================================== *)

Module wire.
Import Strings protocol.

(** [s] has no white space at either end. *)
Definition trimmed (s : string) : Prop := TrimSpace s = s.

(** [s] holds none of the three separators [:], [;] and [=]. *)
Definition separator_free (s : string) : Prop := ContainsAny s ":;=" = false.

(** The line [raw], trimmed, is [typePortion], the first [:], and
    [section]. *)
Definition line_parts (raw typePortion section : string) : Prop :=
  Cut (TrimSpace raw) ":" = Some (typePortion, section).

(** The pair [pair0] is [keyText], its first [=], and [valueText]. *)
Definition pair_parts (pair0 keyText valueText : string) : Prop :=
  Cut pair0 "=" = Some (keyText, valueText).

(** The pairs of a parameter section: the texts between its [;]. *)
Definition pairs_of (section : string) : list string := Split section ";".

(** A pair that [Parse] refuses: no [=] in it, or nothing but white
    space before its first [=]. *)
Definition malformed_pair (pair0 : string) : Prop :=
  ContainsByte pair0 "=" = false
  ∨ ∃ keyText valueText,
      pair_parts pair0 keyText valueText ∧ TrimSpace keyText = "".

(** A pair that [Parse] reads: a key, not empty once trimmed, an [=],
    and a value. *)
Definition well_formed_pair (pair0 : string) : Prop :=
  ∃ keyText valueText,
    pair_parts pair0 keyText valueText ∧ TrimSpace keyText ≠ "".

(** The values of [m] are the very texts of the line [raw]: each one
    stands in a pair of the parameter section, after the first [=] and
    up to the end of the pair. *)
Definition values_verbatim (raw : string) (m : Message) : Prop :=
  ∀ key value,
    Params m !! key = Some value →
    ∃ typePortion section pair0 keyText,
      line_parts raw typePortion section
      ∧ pair0 ∈ pairs_of section
      ∧ pair_parts pair0 keyText value.

(** [Parse] gives back the message that was formatted: the same type
    tag and the same pairs. *)
Definition round_trips (order : list (string * string)) (m : Message) : Prop :=
  ∃ m', Parse (FormatIn order m) = Ok m'
        ∧ Type_ m' = Type_ m ∧ Params m' = Params m.

End wire.

Module scenario.
Import state.

(** The store after the calls [Set(clientID, k, v)], one for each
    [(k, v)] of [calls], first to last. *)
Definition set_calls (s : ContextStore) (clientID : string)
    (calls : list (string * string)) : ContextStore :=
  foldl (λ s kv, Set_ s clientID kv.1 kv.2) s calls.

(** Neither the client nor the key is there. *)
Definition absent (s : ContextStore) (clientID key : string) : Prop :=
  contexts s !! clientID = None
  ∨ ∃ client, contexts s !! clientID = Some client ∧ Values client !! key = None.

(** The clients whose context maps [key] to [value]. *)
Definition matching (s : ContextStore) (key value clientID : string) : Prop :=
  ∃ client, contexts s !! clientID = Some client
            ∧ Values client !! key = Some value.

(** Three clients: A = {x: 1}, B = {x: 1}, C = {x: 2}. *)
Definition storeABC : ContextStore :=
  Set_ (Set_ (Set_ NewContextStore "A" "x" "1") "B" "x" "1") "C" "x" "2".

End scenario.

Module session.
Import Strings protocol state server.

(** Every byte of [s] is one of the six ASCII white space bytes. *)
Fixpoint blank (s : string) : bool :=
  match s with
  | "" => true
  | String c r => asciiSpace c && blank r
  end.

(** What every message that [Parse] returns looks like: a type tag that
    is not empty, has no white space at its ends and no [:]; keys that are
    not empty, have no white space at their ends and hold neither [=] nor
    [;]; values that have no white space at their ends and no [;]. *)
Definition canonical (m : Message) : Prop :=
  Type_ m ≠ "" ∧ TrimSpace (Type_ m) = Type_ m
  ∧ ContainsByte (Type_ m) ":" = false
  ∧ ∀ key value,
      Params m !! key = Some value →
      key ≠ "" ∧ TrimSpace key = key ∧ TrimSpace value = value
      ∧ ContainsByte key "=" = false ∧ ContainsByte key ";" = false
      ∧ ContainsByte value ";" = false.

(** What the handler writes for a line read at time [now]: one line for
    a PING, one for a CONTEXT, nothing otherwise. *)
Definition response (now : Z) (line : string) : option string :=
  match Parse line with
  | Ok msg =>
      if decide (Type_ msg = TypePing)
      then Some ("PONG:time=" +:+ Fmt.Sprintf_d now +:+ newline)
      else if decide (Type_ msg = TypeContext)
      then Some ("ACK:status=ok" +:+ newline)
      else None
  | Err _ => None
  end.

(** The values of a client, none when it has no context. *)
Definition valuesOf (s : ContextStore) (clientID : string) : gmap string string :=
  Values (clientOrNew s clientID).

End session.

(* ===================================================================== *)
(** * Properties                                                          *)
(* ===================================================================== *)

(** ** Strings *)

Section StringFacts.
Import Strings.

Lemma string_length_ind (P : string → Prop) :
  (∀ s, (∀ s', String.length s' < String.length s → P s') → P s) → ∀ s, P s.
Proof.
  intros step s. apply step.
  assert (bounded : ∀ n s', String.length s' < n → P s').
  { induction n as [|n IHn]; intros s' Hlt; [lia|].
    apply step. intros s'' Hlt'. apply IHn. lia. }
  intros s' _. apply (bounded (S (String.length s'))). lia.
Qed.

Lemma append_nil_r s : s +:+ "" = s.
Proof. induction s as [|a s IH]; simpl; congruence. Qed.

Lemma append_assoc s1 s2 s3 : (s1 +:+ s2) +:+ s3 = s1 +:+ (s2 +:+ s3).
Proof. induction s1 as [|a s1 IH]; simpl; congruence. Qed.

Lemma append_length s1 s2 :
  String.length (s1 +:+ s2) = String.length s1 + String.length s2.
Proof. induction s1 as [|a s1 IH]; simpl; [done | by rewrite IH]. Qed.

Lemma append_eq_nil s1 s2 : s1 +:+ s2 = "" → s1 = "" ∧ s2 = "".
Proof. destruct s1; simpl; [done|discriminate]. Qed.

Lemma rev_app_append s acc : String.rev_app s acc = String.rev s +:+ acc.
Proof.
  unfold String.rev. revert acc.
  induction s as [|a s IH]; intros acc; simpl; [done|].
  rewrite (IH (String a "")), IH, append_assoc. done.
Qed.

Lemma rev_cons a s : String.rev (String a s) = String.rev s +:+ String a "".
Proof. unfold String.rev at 1. simpl. apply rev_app_append. Qed.

Lemma rev_append s1 s2 :
  String.rev (s1 +:+ s2) = String.rev s2 +:+ String.rev s1.
Proof.
  induction s1 as [|a s1 IH]; simpl.
  - by rewrite append_nil_r.
  - by rewrite !rev_cons, IH, append_assoc.
Qed.

Lemma rev_involutive s : String.rev (String.rev s) = s.
Proof.
  induction s as [|a s IH]; [done|].
  by rewrite rev_cons, rev_append, IH.
Qed.

Lemma rev_length s : String.length (String.rev s) = String.length s.
Proof.
  induction s as [|a s IH]; [done|].
  rewrite rev_cons, append_length, IH. simpl. lia.
Qed.

Lemma rev_eq_nil s : String.rev s = "" → s = "".
Proof.
  intros H. apply (f_equal String.length) in H.
  rewrite rev_length in H. by destruct s.
Qed.

End StringFacts.

(** ** The white space scan *)

Section ScanFacts.
Import Strings.
Variable sp1 : ascii → bool.
Variable sp2 : ascii → ascii → bool.
Variable sp3 : ascii → ascii → ascii → bool.

(** One step of the scan, the recursive calls left folded. *)
Lemma dropSpace_eq s :
  dropSpace sp1 sp2 sp3 s =
  match s with
  | "" => ""
  | String a s1 =>
      if sp1 a then dropSpace sp1 sp2 sp3 s1 else
      match s1 with
      | "" => s
      | String b s2 =>
          if sp2 a b then dropSpace sp1 sp2 sp3 s2 else
          match s2 with
          | "" => s
          | String c s3 => if sp3 a b c then dropSpace sp1 sp2 sp3 s3 else s
          end
      end
  end.
Proof. by destruct s. Qed.

(** The four ways a scan of a non-empty string goes on. *)
Lemma dropSpace_cases a s1 :
  (sp1 a = true
   ∧ dropSpace sp1 sp2 sp3 (String a s1) = dropSpace sp1 sp2 sp3 s1)
  ∨ (∃ b s2,
        s1 = String b s2 ∧ sp1 a = false ∧ sp2 a b = true
        ∧ dropSpace sp1 sp2 sp3 (String a s1) = dropSpace sp1 sp2 sp3 s2)
  ∨ (∃ b c s3,
        s1 = String b (String c s3) ∧ sp1 a = false ∧ sp2 a b = false
        ∧ sp3 a b c = true
        ∧ dropSpace sp1 sp2 sp3 (String a s1) = dropSpace sp1 sp2 sp3 s3)
  ∨ (dropSpace sp1 sp2 sp3 (String a s1) = String a s1
     ∧ sp1 a = false
     ∧ (∀ b s2, s1 = String b s2 → sp2 a b = false)
     ∧ (∀ b c s3, s1 = String b (String c s3) → sp3 a b c = false)).
Proof.
  rewrite !(dropSpace_eq (String a s1)).
  destruct (sp1 a) eqn:E1; [by left|right].
  destruct s1 as [|b s2]; [by repeat right|].
  destruct (sp2 a b) eqn:E2; [left; by exists b, s2|right].
  destruct s2 as [|c s3].
  { right. repeat split; [congruence | discriminate]. }
  destruct (sp3 a b c) eqn:E3; [left; by exists b, c, s3|right].
  repeat split; congruence.
Qed.

(** What is left is the end of the string. *)
Lemma dropSpace_suffix s : ∃ p, s = p +:+ dropSpace sp1 sp2 sp3 s.
Proof.
  induction s as [s IH] using string_length_ind.
  destruct s as [|a s1]; [by exists ""|].
  destruct (dropSpace_cases a s1)
    as [[_ ->]|[(b & s2 & -> & _ & _ & ->)
       |[(b & c & s3 & -> & _ & _ & _ & ->)|[-> _]]]].
  - destruct (IH s1) as [p Hp]; [simpl; lia|].
    exists (String a p). simpl. by rewrite <- Hp.
  - destruct (IH s2) as [p Hp]; [simpl; lia|].
    exists (String a (String b p)). simpl. by rewrite <- Hp.
  - destruct (IH s3) as [p Hp]; [simpl; lia|].
    exists (String a (String b (String c p))). simpl. by rewrite <- Hp.
  - by exists "".
Qed.

Lemma dropSpace_length s : (String.length (dropSpace sp1 sp2 sp3 s) ≤ String.length s)%nat.
Proof.
  destruct (dropSpace_suffix s) as [p Hp].
  rewrite Hp at 2. rewrite append_length. lia.
Qed.

Lemma dropSpace_same_length s :
  String.length (dropSpace sp1 sp2 sp3 s) = String.length s → dropSpace sp1 sp2 sp3 s = s.
Proof.
  intros Hlen. destruct (dropSpace_suffix s) as [p Hp].
  rewrite Hp in Hlen at 2. rewrite append_length in Hlen.
  destruct p; [done | simpl in Hlen; lia].
Qed.

(** A second scan finds nothing to remove. *)
Lemma dropSpace_idem s : dropSpace sp1 sp2 sp3 (dropSpace sp1 sp2 sp3 s) = dropSpace sp1 sp2 sp3 s.
Proof.
  induction s as [s IH] using string_length_ind.
  destruct s as [|a s1]; [done|].
  destruct (dropSpace_cases a s1)
    as [[_ ->]|[(b & s2 & -> & _ & _ & ->)
       |[(b & c & s3 & -> & _ & _ & _ & ->)|[Hstop _]]]].
  - apply IH. simpl; lia.
  - apply IH. simpl; lia.
  - apply IH. simpl; lia.
  - by rewrite !Hstop.
Qed.

Lemma dropSpace_contains s c :
  ContainsByte s c = false → ContainsByte (dropSpace sp1 sp2 sp3 s) c = false.
Proof.
  destruct (dropSpace_suffix s) as [p Hp].
  generalize (dropSpace sp1 sp2 sp3 s) Hp. clear Hp. intros t ->.
  induction p as [|a p IH]; simpl; [done|].
  intros [_ H]%orb_false_iff. auto.
Qed.

(** Plain bytes occur in no encoding of a white space rune. *)
Hypothesis sp1_plain : ∀ a, plain a = true → sp1 a = false.
Hypothesis sp2_plain : ∀ a b, plain a = true ∨ plain b = true → sp2 a b = false.
Hypothesis sp3_plain :
  ∀ a b c, plain a = true ∨ plain b = true ∨ plain c = true → sp3 a b c = false.

Lemma dropSpace_plain c r : plain c = true → dropSpace sp1 sp2 sp3 (String c r) = String c r.
Proof.
  intros Hc.
  destruct (dropSpace_cases c r)
    as [[E _]|[(b & s2 & _ & _ & E & _)
       |[(b & d & s3 & _ & _ & _ & E & _)|[Hstop _]]]]; [| | |done].
  - by rewrite sp1_plain in E.
  - rewrite sp2_plain in E; [done | auto].
  - rewrite sp3_plain in E; [done | auto].
Qed.

(** The scan stops at a plain byte, and what it did before that byte
    does not depend on what follows. *)
Lemma dropSpace_app_plain t c r :
  plain c = true → dropSpace sp1 sp2 sp3 (t +:+ String c r) = dropSpace sp1 sp2 sp3 t +:+ String c r.
Proof.
  intros Hc.
  induction t as [t IH] using string_length_ind.
  destruct t as [|a t1]; [by apply dropSpace_plain|].
  destruct (dropSpace_cases a t1)
    as [[E1 ->]|[(b & t2 & -> & E1 & E2 & ->)
       |[(b & d & t3 & -> & E1 & E2 & E3 & ->)|(-> & E1 & E2 & E3)]]].
  - rewrite <- IH by (simpl; lia).
    change (String a t1 +:+ String c r) with (String a (t1 +:+ String c r)).
    by rewrite dropSpace_eq, E1.
  - rewrite <- IH by (simpl; lia).
    change (String a (String b t2) +:+ String c r)
      with (String a (String b (t2 +:+ String c r))).
    by rewrite dropSpace_eq, E1, E2.
  - rewrite <- IH by (simpl; lia).
    change (String a (String b (String d t3)) +:+ String c r)
      with (String a (String b (String d (t3 +:+ String c r)))).
    by rewrite dropSpace_eq, E1, E2, E3.
  - change (String a t1 +:+ String c r) with (String a (t1 +:+ String c r)).
    rewrite dropSpace_eq, E1.
    destruct t1 as [|b [|d t3]]; cbn [append].
    + rewrite sp2_plain by auto.
      destruct r; [done|]. by rewrite sp3_plain by auto.
    + rewrite (E2 b "") by done. by rewrite sp3_plain by auto.
    + rewrite (E2 b (String d t3)) by done. by rewrite (E3 b d t3).
Qed.

End ScanFacts.

(** ** TrimSpace *)

Section TrimFacts.
Import Strings.

(** White space of one, two and three bytes goes; a lone byte 0x85 is
    not a rune and stays; white space inside stays. *)
Example TrimSpace_unicode :
  TrimSpace (String "009" (String "194" (String "160"
              ("a b" +:+ String "226" (String "128" (String "138"
                          (String "227" (String "128" (String "128" " ")))))))))
  = "a b".
Proof. reflexivity. Qed.

Example TrimSpace_invalid_byte :
  TrimSpace (String "133" "a ") = String "133" "a".
Proof. reflexivity. Qed.

Lemma plain_code c :
  plain c = true → (code c < 128)%N ∧ asciiSpace c = false.
Proof.
  unfold plain. intros [H1 H2]%andb_true_iff.
  split; [by apply N.ltb_lt | by apply negb_true_iff].
Qed.

Lemma isSpace2_high a b :
  isSpace2 a b = true → (128 ≤ code a)%N ∧ (128 ≤ code b)%N.
Proof.
  unfold isSpace2.
  rewrite andb_true_iff, orb_true_iff, !N.eqb_eq. lia.
Qed.

Lemma isSpace3_high a b c :
  isSpace3 a b c = true →
  (128 ≤ code a)%N ∧ (128 ≤ code b)%N ∧ (128 ≤ code c)%N.
Proof.
  unfold isSpace3.
  rewrite !orb_true_iff, !andb_true_iff, !orb_true_iff, !andb_true_iff,
    !N.eqb_eq, !N.leb_le.
  lia.
Qed.

Lemma asciiSpace_plain a : plain a = true → asciiSpace a = false.
Proof. by intros [_ ?]%plain_code. Qed.

Lemma isSpace2_plain a b :
  plain a = true ∨ plain b = true → isSpace2 a b = false.
Proof.
  intros H. destruct (isSpace2 a b) eqn:E; [|done].
  apply isSpace2_high in E.
  destruct H as [[? _]%plain_code|[? _]%plain_code]; lia.
Qed.

Lemma isSpace3_plain a b c :
  plain a = true ∨ plain b = true ∨ plain c = true → isSpace3 a b c = false.
Proof.
  intros H. destruct (isSpace3 a b c) eqn:E; [|done].
  apply isSpace3_high in E.
  destruct H as [[? _]%plain_code|[[? _]%plain_code|[? _]%plain_code]]; lia.
Qed.

Lemma TrimLeft_app_plain t c r :
  plain c = true → TrimLeft (t +:+ String c r) = TrimLeft t +:+ String c r.
Proof.
  apply dropSpace_app_plain;
    auto using asciiSpace_plain, isSpace2_plain, isSpace3_plain.
Qed.

Lemma trimRev_app_plain t c r :
  plain c = true → trimRev (t +:+ String c r) = trimRev t +:+ String c r.
Proof.
  apply dropSpace_app_plain; [apply asciiSpace_plain|..].
  - intros a b H. apply isSpace2_plain. tauto.
  - intros a b d H. apply isSpace3_plain. tauto.
Qed.

Lemma TrimRight_app_plain t c r :
  plain c = true → TrimRight (t +:+ String c r) = t +:+ String c (TrimRight r).
Proof.
  intros Hc. unfold TrimRight.
  rewrite rev_append, rev_cons, append_assoc. simpl.
  rewrite trimRev_app_plain by done.
  rewrite rev_append, rev_cons, rev_involutive, append_assoc. done.
Qed.

(** Trimming around a plain byte: each side is trimmed on its own. *)
Lemma TrimSpace_app_plain t c r :
  plain c = true →
  TrimSpace (t +:+ String c r) = TrimLeft t +:+ String c (TrimRight r).
Proof.
  intros Hc. unfold TrimSpace.
  by rewrite TrimLeft_app_plain, TrimRight_app_plain.
Qed.

Lemma TrimLeft_idem s : TrimLeft (TrimLeft s) = TrimLeft s.
Proof. apply dropSpace_idem. Qed.

Lemma TrimSpace_TrimLeft s : TrimSpace (TrimLeft s) = TrimSpace s.
Proof. unfold TrimSpace. by rewrite TrimLeft_idem. Qed.

Lemma TrimRight_idem s : TrimRight (TrimRight s) = TrimRight s.
Proof.
  unfold TrimRight, trimRev. by rewrite rev_involutive, dropSpace_idem.
Qed.

Lemma TrimSpace_TrimRight s : TrimRight (TrimSpace s) = TrimSpace s.
Proof. apply TrimRight_idem. Qed.

Lemma TrimLeft_length s : (String.length (TrimLeft s) ≤ String.length s)%nat.
Proof. apply dropSpace_length. Qed.

Lemma TrimRight_length s : (String.length (TrimRight s) ≤ String.length s)%nat.
Proof.
  unfold TrimRight, trimRev. rewrite rev_length.
  etrans; [apply dropSpace_length|]. by rewrite rev_length.
Qed.

(** A string that [TrimSpace] leaves alone has no white space at either
    end. *)
Lemma TrimSpace_fixed s :
  TrimSpace s = s → TrimLeft s = s ∧ TrimRight s = s.
Proof.
  intros Hfix.
  assert (HL : TrimLeft s = s).
  { apply dropSpace_same_length.
    pose proof (TrimLeft_length s) as H1.
    pose proof (TrimRight_length (TrimLeft s)) as H2.
    fold (TrimSpace s) in H2. rewrite Hfix in H2.
    unfold TrimLeft in *. lia. }
  split; [done|]. unfold TrimSpace in Hfix. by rewrite HL in Hfix.
Qed.

Lemma TrimLeft_contains s c :
  ContainsByte s c = false → ContainsByte (TrimLeft s) c = false.
Proof. apply dropSpace_contains. Qed.

End TrimFacts.

(** ** Cut, Split, Join *)

Section SplitFacts.
Import Strings.

Lemma ContainsByte_app s1 s2 c :
  ContainsByte (s1 +:+ s2) c = ContainsByte s1 c || ContainsByte s2 c.
Proof.
  induction s1 as [|a s1 IH]; simpl; [done|]. by rewrite IH, orb_assoc.
Qed.

Lemma Cut_None s sep : Cut s sep = None ↔ ContainsByte s sep = false.
Proof.
  induction s as [|a s IH]; simpl; [done|].
  destruct (decide (a = sep)) as [->|Hne].
  - by rewrite bool_decide_eq_true_2.
  - rewrite bool_decide_eq_false_2 by done. simpl.
    destruct (Cut s sep) as [[before after]|]; [|tauto].
    split; [done|]. intros H. apply IH in H. done.
Qed.

Lemma Cut_app before sep after :
  ContainsByte before sep = false →
  Cut (before +:+ String sep after) sep = Some (before, after).
Proof.
  induction before as [|a before IH]; simpl.
  - intros _. by rewrite decide_True.
  - intros [Ha Hb]%orb_false_iff. apply bool_decide_eq_false in Ha.
    rewrite decide_False by done. by rewrite IH.
Qed.

Lemma Cut_Some s sep before after :
  Cut s sep = Some (before, after) →
  s = before +:+ String sep after ∧ ContainsByte before sep = false.
Proof.
  revert before. induction s as [|a s IH]; intros before; simpl; [done|].
  destruct (decide (a = sep)) as [->|Hne].
  - by intros [= <- <-].
  - destruct (Cut s sep) as [[before' after']|]; [|done].
    intros [= <- <-]. destruct (IH before' eq_refl) as [-> Hb].
    simpl. by rewrite bool_decide_eq_false_2.
Qed.

Lemma SplitN_2 s sep :
  SplitN s sep 2 =
  match Cut s sep with
  | Some (before, after) => [before; after]
  | None => [s]
  end.
Proof. simpl. by destruct (Cut s sep) as [[??]|]. Qed.

Lemma Split_app piece sep rest :
  ContainsByte piece sep = false →
  Split (piece +:+ String sep rest) sep = piece :: Split rest sep.
Proof.
  induction piece as [|a piece IH]; simpl.
  - intros _. by rewrite decide_True.
  - intros [Ha Hb]%orb_false_iff. apply bool_decide_eq_false in Ha.
    rewrite decide_False by done. by rewrite IH.
Qed.

Lemma Split_single piece sep :
  ContainsByte piece sep = false → Split piece sep = [piece].
Proof.
  induction piece as [|a piece IH]; simpl; [done|].
  intros [Ha Hb]%orb_false_iff. apply bool_decide_eq_false in Ha.
  rewrite decide_False by done. by rewrite IH.
Qed.

(** Splitting what was joined gives the pieces back, when no piece
    holds the separator. *)
Lemma Split_Join pieces sep :
  pieces ≠ [] →
  Forall (λ piece, ContainsByte piece sep = false) pieces →
  Split (Join pieces (String sep "")) sep = pieces.
Proof.
  induction pieces as [|piece [|piece' pieces] IH]; [done|..].
  - intros _ [H _]%Forall_cons. by apply Split_single.
  - intros _ [H Hrest]%Forall_cons.
    change (Join (piece :: piece' :: pieces) (String sep ""))
      with (piece +:+ String sep (Join (piece' :: pieces) (String sep ""))).
    rewrite Split_app by done. by rewrite IH.
Qed.

Lemma ContainsAny_separators s :
  ContainsAny s ":;=" = false →
  ContainsByte s ":" = false ∧ ContainsByte s ";" = false
  ∧ ContainsByte s "=" = false.
Proof.
  simpl. rewrite !orb_false_iff. tauto.
Qed.

End SplitFacts.

(** ** Loops that assign the entries of a map *)

Section AssignFacts.

Lemma foldl_insert_union (order : list (string * string)) (base : gmap string string) :
  foldl (λ acc kv, <[kv.1 := kv.2]> acc) base order
  = list_to_map (rev order) ∪ base.
Proof.
  revert base. induction order as [|[k v] order IH]; intros base; simpl.
  - by rewrite (left_id_L ∅ (∪)).
  - rewrite IH, list_to_map_app. simpl.
    rewrite <- (assoc_L (∪)). f_equal.
    by rewrite <- insert_union_l, (left_id_L ∅ (∪)).
Qed.

(** Whatever the order of the loop, the entries of [m] end up over
    those of [base]. *)
Lemma foldl_insert_range (m base : gmap string string) order :
  range_order m order →
  foldl (λ acc kv, <[kv.1 := kv.2]> acc) base order = m ∪ base.
Proof.
  unfold range_order. intros Hperm.
  rewrite foldl_insert_union. f_equal.
  symmetry. apply list_to_map_flip.
  rewrite <- Hperm. apply Permutation_rev.
Qed.

Lemma range_order_nil {A} (m : gmap string A) : range_order m [] → m = ∅.
Proof.
  unfold range_order. intros H%Permutation_nil_l.
  by apply map_to_list_empty_iff.
Qed.

Lemma range_order_lookup {A} (m : gmap string A) order k v :
  range_order m order → (k, v) ∈ order ↔ m !! k = Some v.
Proof.
  unfold range_order. intros ->. apply elem_of_map_to_list.
Qed.

Lemma range_order_NoDup {A} (m : gmap string A) order :
  range_order m order → NoDup order.*1.
Proof.
  unfold range_order. intros ->. apply NoDup_fst_map_to_list.
Qed.

Lemma range_order_map_to_list {A} (m : gmap string A) :
  range_order m (map_to_list m).
Proof. unfold range_order. reflexivity. Qed.

End AssignFacts.

(** ** Parse *)

Section ParseFacts.
Import Strings protocol wire.

Lemma plain_colon : plain ":" = true.
Proof. reflexivity. Qed.

Lemma plain_semicolon : plain ";" = true.
Proof. reflexivity. Qed.

Lemma plain_equals : plain "=" = true.
Proof. reflexivity. Qed.

(** [Parse] in terms of the parts of the trimmed line. *)
Lemma Parse_parts raw :
  Parse raw =
  if decide (TrimSpace raw = "") then Err ErrEmptyMessage
  else match Cut (TrimSpace raw) ":" with
       | None => Err ErrMissingTypeSeparator
       | Some (typePortion, section) =>
           if decide (TrimSpace typePortion = "") then Err ErrMissingType
           else bind (parseParams section)
                     (λ params, Ok {| Type_ := TrimSpace typePortion;
                                      Params := params |})
       end.
Proof.
  unfold Parse. destruct (decide (TrimSpace raw = "")); [done|].
  rewrite SplitN_2. by destruct (Cut (TrimSpace raw) ":") as [[??]|].
Qed.

(** [parsePair] in terms of the parts of the pair. *)
Lemma parsePair_parts params pair0 :
  parsePair params pair0 =
  match Cut pair0 "=" with
  | None => Err (ErrInvalidParameterFormat pair0)
  | Some (keyText, valueText) =>
      if decide (TrimSpace keyText = "") then Err ErrEmptyParameterKey
      else Ok (<[TrimSpace keyText := TrimSpace valueText]> params)
  end.
Proof.
  unfold parsePair. rewrite SplitN_2.
  by destruct (Cut pair0 "=") as [[??]|].
Qed.

(** A line with a type portion free of [:]: the type is the trimmed
    portion, and the parameters are read from the rest of the line with
    the white space at its end removed. *)
Lemma Parse_line typePortion rest :
  ContainsByte typePortion ":" = false →
  Parse (typePortion +:+ ":" +:+ rest) =
  if decide (TrimSpace typePortion = "") then Err ErrMissingType
  else bind (parseParams (TrimRight rest))
            (λ params, Ok {| Type_ := TrimSpace typePortion; Params := params |}).
Proof.
  intros Hfree. rewrite Parse_parts.
  change (typePortion +:+ ":" +:+ rest) with (typePortion +:+ String ":" rest).
  rewrite TrimSpace_app_plain by apply plain_colon.
  rewrite decide_False by (by intros [_ ?]%append_eq_nil).
  rewrite Cut_app by (by apply TrimLeft_contains).
  by rewrite TrimSpace_TrimLeft.
Qed.

Lemma pair_dichotomy pair0 : malformed_pair pair0 ∨ well_formed_pair pair0.
Proof.
  unfold malformed_pair, well_formed_pair, pair_parts.
  destruct (Cut pair0 "=") as [[keyText valueText]|] eqn:E.
  - destruct (decide (TrimSpace keyText = "")); [left; right|right]; eauto.
  - left. left. by apply Cut_None.
Qed.

Lemma pair_not_both pair0 : malformed_pair pair0 → well_formed_pair pair0 → False.
Proof.
  unfold malformed_pair, well_formed_pair, pair_parts.
  intros [Hnone|(k & v & Hcut & Hk)] (k' & v' & Hcut' & Hk').
  - apply Cut_None in Hnone. congruence.
  - congruence.
Qed.

Lemma parsePair_malformed params pair0 :
  malformed_pair pair0 → ∃ e, parsePair params pair0 = Err e.
Proof.
  rewrite parsePair_parts.
  intros [Hnone%Cut_None|(k & v & Hcut & Hk)].
  - rewrite Hnone. eauto.
  - unfold pair_parts in Hcut. rewrite Hcut, decide_True by done. eauto.
Qed.

Lemma parsePair_well_formed params pair0 keyText valueText :
  pair_parts pair0 keyText valueText → TrimSpace keyText ≠ "" →
  parsePair params pair0
  = Ok (<[TrimSpace keyText := TrimSpace valueText]> params).
Proof.
  unfold pair_parts. intros Hcut Hk.
  by rewrite parsePair_parts, Hcut, decide_False.
Qed.

(** The loop fails exactly when it meets a malformed pair. *)
Lemma parsePairs_Err paramPairs params :
  (∃ e, parsePairs paramPairs params = Err e) ↔ Exists malformed_pair paramPairs.
Proof.
  revert params. induction paramPairs as [|pair0 rest IH]; intros params; simpl.
  - rewrite Exists_nil. split; [by intros [e ?]|done].
  - rewrite Exists_cons.
    destruct (pair_dichotomy pair0) as [Hbad|Hgood].
    + destruct (parsePair_malformed params pair0 Hbad) as [e ->]. simpl.
      split; eauto.
    + destruct Hgood as (k & v & Hcut & Hk).
      rewrite (parsePair_well_formed _ _ _ _ Hcut Hk). simpl.
      rewrite IH. split; [auto|].
      intros [Hbad|?]; [|done].
      destruct (pair_not_both pair0 Hbad). by exists k, v.
Qed.

Lemma parsePairs_Ok paramPairs params :
  Forall well_formed_pair paramPairs →
  ∃ params', parsePairs paramPairs params = Ok params'.
Proof.
  intros Hall.
  destruct (parsePairs paramPairs params) as [params'|e] eqn:E; [eauto|].
  assert (Hex : Exists malformed_pair paramPairs)
    by (apply (parsePairs_Err _ params); eauto).
  apply Exists_exists in Hex as (pair0 & Hin & Hbad).
  rewrite Forall_forall in Hall.
  destruct (pair_not_both pair0 Hbad (Hall _ Hin)).
Qed.

Lemma parsePairs_app before after params :
  parsePairs (before ++ after) params
  = bind (parsePairs before params) (parsePairs after).
Proof.
  revert params. induction before as [|pair0 before IH]; intros params; simpl.
  - done.
  - destruct (parsePair params pair0); simpl; [apply IH|done].
Qed.

(** Where an entry of the result comes from: the map the loop started
    with, or a pair of the list. *)
Lemma parsePairs_origin paramPairs params params' key value :
  parsePairs paramPairs params = Ok params' →
  params' !! key = Some value →
  params !! key = Some value
  ∨ ∃ pair0 keyText valueText,
      pair0 ∈ paramPairs ∧ pair_parts pair0 keyText valueText
      ∧ key = TrimSpace keyText ∧ value = TrimSpace valueText.
Proof.
  revert params. induction paramPairs as [|pair0 rest IH]; intros params; simpl.
  - intros [= ->]. auto.
  - rewrite parsePair_parts.
    destruct (Cut pair0 "=") as [[keyText valueText]|] eqn:Hcut; [|done].
    destruct (decide (TrimSpace keyText = "")); [done|]. simpl.
    intros Hrest Hlook.
    destruct (IH _ Hrest Hlook)
      as [Hnew|(pair1 & k1 & v1 & Hin & Hparts & -> & ->)].
    + apply lookup_insert_Some in Hnew as [[<- <-]|[_ Hold]]; [|auto].
      right. exists pair0, keyText, valueText.
      split; [apply list_elem_of_here|done].
    + right. exists pair1, k1, v1. split; [by apply list_elem_of_further|done].
Qed.

(** Pairs with other keys leave an entry as it is. *)
Lemma parsePairs_other_keys paramPairs params params' key :
  parsePairs paramPairs params = Ok params' →
  (∀ pair0 keyText valueText,
      pair0 ∈ paramPairs → pair_parts pair0 keyText valueText →
      TrimSpace keyText ≠ key) →
  params' !! key = params !! key.
Proof.
  revert params. induction paramPairs as [|pair0 rest IH]; intros params; simpl.
  - by intros [= ->].
  - rewrite parsePair_parts.
    destruct (Cut pair0 "=") as [[keyText valueText]|] eqn:Hcut; [|done].
    destruct (decide (TrimSpace keyText = "")); [done|]. simpl.
    intros Hrest Hother.
    rewrite (IH _ Hrest).
    + apply lookup_insert_ne.
      apply (Hother pair0 keyText valueText); [apply list_elem_of_here|done].
    + intros pair1 k1 v1 Hin. apply Hother. by apply list_elem_of_further.
Qed.

End ParseFacts.

(** ** The protocol codec: the claims *)

Section CodecClaims.
Import Strings protocol wire.

Lemma parseParams_Err section :
  (∃ e, parseParams section = Err e)
  ↔ section ≠ "" ∧ Exists malformed_pair (pairs_of section).
Proof.
  unfold parseParams, pairs_of.
  destruct (decide (section = "")) as [->|Hne].
  - split; [by intros [e ?] | by intros [? _]].
  - rewrite parsePairs_Err. tauto.
Qed.

(** C3.  [Parse] refuses the lines [""], ["NoColonHere"], ["TYPE:key"]
    and ["TYPE:=value"], and reads ["TYPE:"] as the message of type
    [TYPE] with no parameter.  In general [Parse] returns an error
    exactly when the trimmed line is empty, or has no [:], or has a type
    portion (the text before the first [:]) that is empty once trimmed,
    or has a parameter section that is not empty and holds a pair with
    no [=] or with a key (the text before the first [=], trimmed as
    [Parse] does) that is empty. *)
Theorem Parse_error_cases :
  Parse "" = Err ErrEmptyMessage
  ∧ Parse "NoColonHere" = Err ErrMissingTypeSeparator
  ∧ Parse "TYPE:key" = Err (ErrInvalidParameterFormat "key")
  ∧ Parse "TYPE:=value" = Err ErrEmptyParameterKey
  ∧ Parse "TYPE:" = Ok {| Type_ := "TYPE"; Params := ∅ |}
  ∧ ∀ raw,
      (∃ e, Parse raw = Err e)
      ↔ (TrimSpace raw = ""
         ∨ ContainsByte (TrimSpace raw) ":" = false
         ∨ ∃ typePortion section,
             line_parts raw typePortion section
             ∧ (TrimSpace typePortion = ""
                ∨ (section ≠ ""
                   ∧ ∃ pair0, pair0 ∈ pairs_of section
                              ∧ malformed_pair pair0))).
Proof.
  do 5 (split; [reflexivity|]).
  intros raw. rewrite Parse_parts. unfold line_parts.
  destruct (decide (TrimSpace raw = "")) as [Hempty|Hne].
  { split; [auto | eauto]. }
  destruct (Cut (TrimSpace raw) ":") as [[typePortion section]|] eqn:Hcut.
  - assert (Hcolon : ContainsByte (TrimSpace raw) ":" ≠ false).
    { intros H%Cut_None. congruence. }
    destruct (decide (TrimSpace typePortion = "")) as [Hty|Hty].
    { split; [|eauto]. intros _. right. right.
      exists typePortion, section. auto. }
    split.
    + intros [e He]. right. right. exists typePortion, section.
      split; [done|]. right.
      assert (Hsec : ∃ e', parseParams section = Err e').
      { destruct (parseParams section) as [params|e']; [done|eauto]. }
      apply parseParams_Err in Hsec as [Hsec Hex].
      split; [done|]. by apply Exists_exists.
    + intros [?|[?|(t & sec & [= <- <-] & [?|[Hsec Hex]])]]; [done..|].
      apply Exists_exists in Hex.
      destruct (proj2 (parseParams_Err section) (conj Hsec Hex)) as [e' ->].
      simpl. eauto.
  - split; [|eauto]. intros _. right. left. by apply Cut_None.
Qed.

(** A use of C3 on a line whose only key is a blank. *)
Lemma Parse_error_cases_witness : ∃ e, Parse "T: =v" = Err e.
Proof.
  apply (proj2 (proj2 (proj2 (proj2 (proj2 Parse_error_cases)))) "T: =v").
  right. right. exists "T", " =v".
  split; [reflexivity|]. right. split; [discriminate|].
  exists " =v". split; [apply list_elem_of_here|].
  right. exists " ", "v". split; reflexivity.
Defined.

(** C2, as stated, fails: in ["T:k= v"] the text after the [=] is
    [" v"], and the value that [Parse] stores for [k] is ["v"]. *)
Lemma Parse_values_not_verbatim :
  ¬ (∀ raw m, Parse raw = Ok m → values_verbatim raw m).
Proof.
  intros Hclaim.
  assert (Hparse : Parse "T:k= v" = Ok {| Type_ := "T"; Params := {["k" := "v"]} |})
    by reflexivity.
  destruct (Hclaim _ _ Hparse "k" "v")
    as (typePortion & section & pair0 & keyText & Hline & Hin & Hpair);
    [reflexivity|].
  unfold line_parts in Hline. injection Hline as <- <-.
  apply list_elem_of_singleton in Hin as ->.
  unfold pair_parts in Hpair. discriminate Hpair.
Qed.

(** C2, amended.  For every line that [Parse] accepts, the value stored
    for a key is the text that stands, in a pair of the parameter
    section of the trimmed line, between the first [=] of the pair and
    the next [;] (or the end of the section), with the white space at
    its two ends removed and no other change; the key is the text
    before that [=], trimmed in the same way. *)
Theorem Parse_values_trimmed raw m key value :
  Parse raw = Ok m →
  Params m !! key = Some value →
  ∃ typePortion section pair0 keyText valueText,
    line_parts raw typePortion section
    ∧ pair0 ∈ pairs_of section
    ∧ pair0 = keyText +:+ "=" +:+ valueText
    ∧ ContainsByte keyText "=" = false
    ∧ key = TrimSpace keyText
    ∧ value = TrimSpace valueText.
Proof.
  rewrite Parse_parts. unfold line_parts.
  destruct (decide (TrimSpace raw = "")); [done|].
  destruct (Cut (TrimSpace raw) ":") as [[typePortion section]|]; [|done].
  destruct (decide (TrimSpace typePortion = "")); [done|].
  unfold parseParams.
  destruct (decide (section = "")) as [->|Hsec]; simpl.
  { intros [= <-]. simpl. by rewrite lookup_empty. }
  destruct (parsePairs (Split section ";") ∅) as [params|e] eqn:Hpairs;
    simpl; [|done].
  intros [= <-]. simpl. intros Hlook.
  destruct (parsePairs_origin _ _ _ _ _ Hpairs Hlook)
    as [Hnone|(pair0 & keyText & valueText & Hin & Hparts & -> & ->)].
  { by rewrite lookup_empty in Hnone. }
  apply Cut_Some in Hparts as [-> Hfree].
  exists typePortion, section, (keyText +:+ String "=" valueText),
    keyText, valueText.
  done.
Qed.

Lemma Parse_values_trimmed_witness :
  ∃ typePortion section pair0 keyText valueText,
    line_parts " T :a=1; k = v ;b=2 " typePortion section
    ∧ pair0 ∈ pairs_of section
    ∧ pair0 = keyText +:+ "=" +:+ valueText
    ∧ ContainsByte keyText "=" = false
    ∧ "k" = TrimSpace keyText
    ∧ "v" = TrimSpace valueText.
Proof.
  apply (Parse_values_trimmed " T :a=1; k = v ;b=2 "
           {| Type_ := "T";
              Params := <["a" := "1"]> (<["k" := "v"]> {["b" := "2"]}) |}).
  - reflexivity.
  - reflexivity.
Defined.

(** C9.  When every pair of the parameter section is well formed,
    [Parse] succeeds, whether or not a key occurs in several pairs, and
    the message maps a key to the value of the last pair that has this
    key (keys and values being trimmed, as [Parse] reads them). *)
Theorem Parse_duplicate_keys raw typePortion section :
  line_parts raw typePortion section →
  TrimSpace typePortion ≠ "" →
  Forall well_formed_pair (pairs_of section) →
  ∃ m, Parse raw = Ok m
       ∧ ∀ before pair0 after keyText valueText,
           pairs_of section = before ++ pair0 :: after →
           pair_parts pair0 keyText valueText →
           (∀ pair1 keyText1 valueText1,
               pair1 ∈ after → pair_parts pair1 keyText1 valueText1 →
               TrimSpace keyText1 ≠ TrimSpace keyText) →
           Params m !! TrimSpace keyText = Some (TrimSpace valueText).
Proof.
  unfold line_parts. intros Hline Hty Hall.
  rewrite Parse_parts, Hline.
  assert (Hraw : TrimSpace raw ≠ "") by (by intros E; rewrite E in Hline).
  rewrite !decide_False by done.
  unfold parseParams.
  destruct (decide (section = "")) as [->|Hsec].
  { apply Forall_cons in Hall as [(k & v & Hcut & _) _]. done. }
  destruct (parsePairs_Ok (pairs_of section) ∅ Hall) as [params Hparams].
  unfold pairs_of in *. rewrite Hparams. simpl.
  eexists. split; [done|]. simpl.
  intros before pair0 after keyText valueText Hsplit Hparts Hlast.
  rewrite Hsplit in Hparams, Hall.
  rewrite parsePairs_app in Hparams.
  destruct (parsePairs before ∅) as [params0|] eqn:Hbefore; [|done].
  simpl in Hparams.
  apply Forall_app in Hall as [_ [Hpair _]%Forall_cons].
  assert (Hkey : TrimSpace keyText ≠ "").
  { destruct Hpair as (k & v & Hcut & Hk).
    unfold pair_parts in *. congruence. }
  rewrite (parsePair_well_formed _ _ _ _ Hparts Hkey) in Hparams.
  simpl in Hparams.
  rewrite (parsePairs_other_keys _ _ _ _ Hparams Hlast).
  apply lookup_insert_eq.
Qed.

Lemma Parse_duplicate_keys_witness :
  ∃ m, Parse "CONTEXT:k=1;j=x; k =2;j=y" = Ok m
       ∧ Params m !! "k" = Some "2".
Proof.
  destruct (Parse_duplicate_keys "CONTEXT:k=1;j=x; k =2;j=y"
              "CONTEXT" "k=1;j=x; k =2;j=y") as (m & Hm & Hlast).
  - reflexivity.
  - discriminate.
  - repeat apply Forall_cons_2; [..|apply Forall_nil_2].
    + exists "k", "1". split; [reflexivity|discriminate].
    + exists "j", "x". split; [reflexivity|discriminate].
    + exists " k ", "2". split; [reflexivity|discriminate].
    + exists "j", "y". split; [reflexivity|discriminate].
  - exists m. split; [exact Hm|].
    apply (Hlast ["k=1"; "j=x"] " k =2" ["j=y"] " k " "2").
    + reflexivity.
    + reflexivity.
    + intros pair1 k1 v1 Hin Hparts.
      apply list_elem_of_singleton in Hin as ->.
      injection Hparts as <- <-. discriminate.
Defined.

Lemma ValidateMessageType_true msgType :
  ValidateMessageType msgType = true
  ↔ msgType ∈ [TypePing; TypePong; TypeContext; TypeAck; TypeError].
Proof.
  unfold ValidateMessageType, validTypes.
  rewrite !elem_of_cons, elem_of_nil.
  destruct (decide (msgType = TypePing)) as [->|H1]; [by split; auto|].
  rewrite lookup_insert_ne by done.
  destruct (decide (msgType = TypePong)) as [->|H2]; [by split; auto|].
  rewrite lookup_insert_ne by done.
  destruct (decide (msgType = TypeContext)) as [->|H3]; [by split; auto|].
  rewrite lookup_insert_ne by done.
  destruct (decide (msgType = TypeAck)) as [->|H4]; [by split; auto 6|].
  rewrite lookup_insert_ne by done.
  destruct (decide (msgType = TypeError)) as [->|H5]; [by split; auto 6|].
  rewrite lookup_insert_ne by done.
  rewrite lookup_empty. split; [done|]. intuition.
Qed.

(** C7.  [ValidateMessageType] accepts PING, PONG, CONTEXT, ACK and
    ERROR and nothing else.  [Parse] does not look at the tag: when a
    line is accepted, the line with any other tag in its place (a text
    without [:] that is not blank), recognized or not, is accepted too,
    with that tag as its type and the same parameters. *)
Theorem ValidateMessageType_not_in_Parse :
  (∀ msgType,
      ValidateMessageType msgType = true
      ↔ msgType ∈ [TypePing; TypePong; TypeContext; TypeAck; TypeError])
  ∧ (∀ tag tag' rest m,
        ContainsByte tag ":" = false → TrimSpace tag ≠ "" →
        ContainsByte tag' ":" = false → TrimSpace tag' ≠ "" →
        Parse (tag +:+ ":" +:+ rest) = Ok m →
        Parse (tag' +:+ ":" +:+ rest)
        = Ok {| Type_ := TrimSpace tag'; Params := Params m |}).
Proof.
  split; [apply ValidateMessageType_true|].
  intros tag tag' rest m Htag Hne Htag' Hne'.
  rewrite !Parse_line by done. rewrite !decide_False by done.
  destruct (parseParams (TrimRight rest)) as [params|e]; simpl; [|done].
  by intros [= <-].
Qed.

Lemma ValidateMessageType_not_in_Parse_witness :
  ValidateMessageType "BOGUS" = false
  ∧ Parse ("BOGUS" +:+ ":" +:+ "name=alice;room=42")
    = Ok {| Type_ := "BOGUS";
            Params := <["name" := "alice"]> {["room" := "42"]} |}.
Proof.
  split; [reflexivity|].
  assert (Htag : TrimSpace "CONTEXT" ≠ "") by discriminate.
  assert (Htag' : TrimSpace "BOGUS" ≠ "") by discriminate.
  exact (proj2 ValidateMessageType_not_in_Parse "CONTEXT" "BOGUS"
           "name=alice;room=42"
           {| Type_ := "CONTEXT";
              Params := <["name" := "alice"]> {["room" := "42"]} |}
           eq_refl Htag eq_refl Htag' eq_refl).
Defined.

(** *** Round trip *)

Lemma Sprintf_pair_parts k v :
  ContainsByte k "=" = false → pair_parts (Fmt.Sprintf_s_eq_s k v) k v.
Proof. intros Hk. unfold pair_parts, Fmt.Sprintf_s_eq_s. by apply Cut_app. Qed.

Lemma Sprintf_pair_not_nil k v : Fmt.Sprintf_s_eq_s k v ≠ "".
Proof. unfold Fmt.Sprintf_s_eq_s. by intros [_ ?]%append_eq_nil. Qed.

Lemma Join_pairs_nil (order : list (string * string)) :
  Join (map (λ kv, Fmt.Sprintf_s_eq_s kv.1 kv.2) order) ";" = "" → order = [].
Proof.
  destruct order as [|[k v] [|kv order]]; [done|..]; simpl.
  - intros H. by destruct (Sprintf_pair_not_nil k v).
  - intros [H _]%append_eq_nil. by destruct (Sprintf_pair_not_nil k v).
Qed.

Lemma Join_cons e e' rest sep :
  Join (e :: e' :: rest) sep = e +:+ sep +:+ Join (e' :: rest) sep.
Proof. done. Qed.

(** No white space to remove at the end of joined pieces that end with
    none. *)
Lemma Join_TrimRight pieces :
  Forall (λ piece, TrimRight piece = piece) pieces →
  TrimRight (Join pieces ";") = Join pieces ";".
Proof.
  induction pieces as [|piece [|piece' pieces] IH]; [done|..].
  - by intros [H _]%Forall_cons.
  - intros [_ Hrest]%Forall_cons. rewrite Join_cons.
    change (";" +:+ Join (piece' :: pieces) ";")
      with (String ";" (Join (piece' :: pieces) ";")).
    by rewrite TrimRight_app_plain, IH by (done || apply plain_semicolon).
Qed.

Lemma Sprintf_pair_TrimRight k v :
  TrimRight v = v →
  TrimRight (Fmt.Sprintf_s_eq_s k v) = Fmt.Sprintf_s_eq_s k v.
Proof.
  intros Hv. unfold Fmt.Sprintf_s_eq_s.
  change (k +:+ "=" +:+ v) with (k +:+ String "=" v).
  by rewrite TrimRight_app_plain, Hv by apply plain_equals.
Qed.

Lemma parsePairs_formatted (order : list (string * string)) params :
  Forall (λ kv, kv.1 ≠ "" ∧ trimmed kv.1 ∧ trimmed kv.2
                ∧ ContainsByte kv.1 "=" = false) order →
  parsePairs (map (λ kv, Fmt.Sprintf_s_eq_s kv.1 kv.2) order) params
  = Ok (foldl (λ acc kv, <[kv.1 := kv.2]> acc) params order).
Proof.
  revert params.
  induction order as [|[k v] order IH]; intros params; [done|].
  intros [(Hne & Hk & Hv & Hfree) Hrest]%Forall_cons. simpl in *.
  rewrite (parsePair_well_formed params _ k v); [|by apply Sprintf_pair_parts|].
  - rewrite Hk, Hv. simpl. by apply IH.
  - by rewrite Hk.
Qed.

(** [Parse] after [Format], whatever the order in which [Format] ranges
    over the parameters. *)
Lemma Parse_FormatIn m order :
  range_order (Params m) order →
  Type_ m ≠ "" → trimmed (Type_ m) → ContainsByte (Type_ m) ":" = false →
  (∀ k v, Params m !! k = Some v →
          k ≠ "" ∧ trimmed k ∧ trimmed v
          ∧ ContainsByte k "=" = false ∧ ContainsByte k ";" = false
          ∧ ContainsByte v ";" = false) →
  Parse (FormatIn order m) = Ok m.
Proof.
  intros Horder Hne Hty Hcolon Hentries.
  assert (Hall : ∀ kv, kv ∈ order →
            kv.1 ≠ "" ∧ trimmed kv.1 ∧ trimmed kv.2
            ∧ ContainsByte kv.1 "=" = false ∧ ContainsByte kv.1 ";" = false
            ∧ ContainsByte kv.2 ";" = false).
  { intros [k v] Hin. apply Hentries.
    by apply (range_order_lookup _ order). }
  unfold FormatIn, Fmt.Sprintf_s_colon_s.
  rewrite Parse_line by done.
  rewrite Hty, decide_False by done.
  rewrite Join_TrimRight.
  2:{ apply Forall_map, Forall_forall. intros kv Hin. simpl.
      destruct (Hall kv Hin) as (_ & _ & Hv & _).
      by apply Sprintf_pair_TrimRight, TrimSpace_fixed. }
  unfold parseParams.
  destruct (decide (Join _ _ = "")) as [Hnil|Hnil].
  - apply Join_pairs_nil in Hnil. subst order.
    apply range_order_nil in Horder. simpl.
    destruct m as [ty params]. simpl in *. by subst.
  - rewrite Split_Join.
    + rewrite parsePairs_formatted.
      * simpl. rewrite (foldl_insert_range (Params m)) by done.
        rewrite (right_id_L ∅ (∪)). by destruct m.
      * apply Forall_forall. intros kv Hin.
        destruct (Hall kv Hin) as (? & ? & ? & ? & _). done.
    + intros Hmap. apply map_eq_nil in Hmap. by subst order.
    + apply Forall_map, Forall_forall. intros kv Hin. simpl.
      destruct (Hall kv Hin) as (_ & _ & _ & _ & Hk & Hv).
      unfold Fmt.Sprintf_s_eq_s.
      rewrite !ContainsByte_app, Hk, Hv. done.
Qed.

(** C1, as stated, fails: a key with a blank in front has none of the
    separators, and comes back from [Parse] without the blank. *)
Lemma Parse_Format_not_round_trip :
  ¬ (∀ m order,
        range_order (Params m) order →
        Type_ m ≠ "" →
        (∀ k v, Params m !! k = Some v → separator_free k ∧ separator_free v) →
        round_trips order m).
Proof.
  intros Hclaim.
  destruct (Hclaim {| Type_ := "T"; Params := {[" k" := "v"]} |} [(" k", "v")])
    as (m' & Hparse & _ & Hparams).
  - unfold range_order. simpl. by rewrite map_to_list_singleton.
  - discriminate.
  - simpl. intros k v [<- <-]%lookup_singleton_Some. by split.
  - injection Hparse as <-. simpl in Hparams.
    apply (f_equal (λ params : gmap string string, params !! "k")) in Hparams.
    discriminate Hparams.
Qed.

(** The other ways in which C1 fails: an empty key is refused by [Parse],
    a [:] in the type tag ends the type early, and white space at an end
    of the type tag or of a value is lost. *)
Example Parse_Format_empty_key :
  Parse (FormatIn [("", "v")] {| Type_ := "T"; Params := {["" := "v"]} |})
  = Err ErrEmptyParameterKey.
Proof. reflexivity. Qed.

Example Parse_Format_colon_in_type :
  Parse (FormatIn [("k", "v")] {| Type_ := "A:B"; Params := {["k" := "v"]} |})
  = Ok {| Type_ := "A"; Params := {["B:k" := "v"]} |}.
Proof. reflexivity. Qed.

Example Parse_Format_blank_in_type :
  Parse (FormatIn [("k", "v")] {| Type_ := " T"; Params := {["k" := "v"]} |})
  = Ok {| Type_ := "T"; Params := {["k" := "v"]} |}.
Proof. reflexivity. Qed.

Example Parse_Format_blank_in_value :
  Parse (FormatIn [("k", "v ")] {| Type_ := "T"; Params := {["k" := "v "]} |})
  = Ok {| Type_ := "T"; Params := {["k" := "v"]} |}.
Proof. reflexivity. Qed.

(** C1, amended.  For every message whose type tag is not empty, holds
    no [:] and has no white space at its ends, and whose keys and values
    hold none of [:], [;], [=] and have no white space at their ends,
    the keys being not empty: [Parse] of [Format] of the message
    succeeds and gives a message with the same type tag and the same
    set of pairs, in whatever order [Format] writes the parameters. *)
Theorem Parse_Format_round_trip m order :
  range_order (Params m) order →
  Type_ m ≠ "" → ContainsByte (Type_ m) ":" = false → trimmed (Type_ m) →
  (∀ k v, Params m !! k = Some v →
          separator_free k ∧ separator_free v
          ∧ k ≠ "" ∧ trimmed k ∧ trimmed v) →
  round_trips order m.
Proof.
  intros Horder Hne Hcolon Hty Hentries.
  exists m. split; [|done].
  apply Parse_FormatIn; [done..|].
  intros k v Hkv.
  destruct (Hentries k v Hkv) as (Hk & Hv & ? & ? & ?).
  apply ContainsAny_separators in Hk as (_ & ? & ?).
  apply ContainsAny_separators in Hv as (_ & ? & _).
  done.
Qed.

Lemma Parse_Format_round_trip_witness :
  round_trips [("room", "42"); ("name", "alice")]
    {| Type_ := "CONTEXT";
       Params := <["name" := "alice"]> {["room" := "42"]} |}.
Proof.
  apply Parse_Format_round_trip.
  - unfold range_order. vm_compute map_to_list. apply perm_swap.
  - discriminate.
  - reflexivity.
  - reflexivity.
  - simpl. intros k v Hkv.
    apply lookup_insert_Some in Hkv as [[<- <-]|[_ Hkv]].
    + repeat split; discriminate.
    + apply lookup_singleton_Some in Hkv as [<- <-].
      repeat split; discriminate.
Defined.

End CodecClaims.

(** ** The context store: the claims *)

Section StoreClaims.
Import state scenario.

Lemma Get_Set_same s clientID key value :
  Get (Set_ s clientID key value) clientID key = (value, true).
Proof.
  unfold Get, Set_. simpl. rewrite lookup_insert_eq. simpl.
  by rewrite lookup_insert_eq.
Qed.

Lemma Get_Clear s clientID key :
  Get (Clear s clientID) clientID key = ("", false).
Proof. unfold Get, Clear. simpl. by rewrite lookup_delete_eq. Qed.

Lemma Get_absent s clientID key :
  Get s clientID key = ("", false) ↔ absent s clientID key.
Proof.
  unfold Get, absent.
  destruct (contexts s !! clientID) as [client|]; [|by split; auto].
  destruct (Values client !! key) as [val|] eqn:E.
  - split; [done|]. intros [?|(client' & [= <-] & ?)]; congruence.
  - split; [|done]. intros _. right. by exists client.
Qed.

(** C5.  After [Set(clientID, key, value)], [Get(clientID, key)] is
    [(value, true)]; after [Clear(clientID)], [Get(clientID, key)] is
    [("", false)] for every key; and [Get] is [("", false)], not found,
    exactly when the client or the key is absent. *)
Theorem Store_get_set_clear s clientID key value :
  Get (Set_ s clientID key value) clientID key = (value, true)
  ∧ (∀ key', Get (Clear s clientID) clientID key' = ("", false))
  ∧ (Get s clientID key = ("", false) ↔ absent s clientID key)
  ∧ ((Get s clientID key).2 = false ↔ absent s clientID key).
Proof.
  split; [apply Get_Set_same|].
  split; [intros key'; apply Get_Clear|].
  split; [apply Get_absent|].
  rewrite <- Get_absent. unfold Get.
  destruct (contexts s !! clientID) as [client|]; [|done].
  by destruct (Values client !! key).
Qed.

(** *** QueryClients *)

Lemma QueryClients_loop (order : list (string * ClientContext)) key value matches :
  foldl (λ matches entry,
           match Values entry.2 !! key with
           | Some v => if decide (v = value) then matches ++ [entry.1] else matches
           | None => matches
           end) matches order
  = matches ++ (filter (λ entry, Values entry.2 !! key = Some value) order).*1.
Proof.
  revert matches.
  induction order as [|[clientID client] order IH]; intros matches; simpl.
  - by rewrite app_nil_r.
  - rewrite IH, filter_cons. simpl.
    destruct (Values client !! key) as [v|] eqn:E.
    + destruct (decide (v = value)) as [->|Hne].
      * rewrite decide_True by done. simpl. by rewrite <- app_assoc.
      * rewrite decide_False by congruence. done.
    + by rewrite decide_False.
Qed.

Lemma QueryClientsIn_filter (order : list (string * ClientContext)) key value :
  QueryClientsIn order key value
  = (filter (λ entry, Values entry.2 !! key = Some value) order).*1.
Proof. unfold QueryClientsIn. by rewrite QueryClients_loop. Qed.

Lemma QueryClientsIn_elem s order key value clientID :
  range_order (contexts s) order →
  clientID ∈ QueryClientsIn order key value ↔ matching s key value clientID.
Proof.
  intros Horder. rewrite QueryClientsIn_filter, list_elem_of_fmap.
  unfold matching. split.
  - intros ([id client] & -> & [Hval Hin]%list_elem_of_filter). simpl in *.
    exists client. split; [|done]. by apply (range_order_lookup _ order).
  - intros (client & Hctx & Hval). exists (clientID, client).
    split; [done|]. apply list_elem_of_filter. split; [done|].
    by apply (range_order_lookup (contexts s)).
Qed.

Lemma QueryClientsIn_NoDup s order key value :
  range_order (contexts s) order → NoDup (QueryClientsIn order key value).
Proof.
  intros Horder%range_order_NoDup. rewrite QueryClientsIn_filter.
  eapply sublist_NoDup; [done|].
  apply fmap_sublist, sublist_filter.
Qed.

(** C6.  In whatever order [QueryClients] ranges over the clients, it
    returns each client whose context maps [key] to exactly [value],
    once, and no other client.  With A = {x: 1}, B = {x: 1} and
    C = {x: 2}, [QueryClients("x", "1")] returns A and B, in some
    order. *)
Theorem QueryClients_exact :
  (∀ s order key value,
      range_order (contexts s) order →
      NoDup (QueryClientsIn order key value)
      ∧ ∀ clientID,
          clientID ∈ QueryClientsIn order key value
          ↔ matching s key value clientID)
  ∧ (∀ s key value,
        NoDup (QueryClients s key value)
        ∧ ∀ clientID,
            clientID ∈ QueryClients s key value ↔ matching s key value clientID)
  ∧ (∀ order,
        range_order (contexts storeABC) order →
        QueryClientsIn order "x" "1" ≡ₚ ["A"; "B"]).
Proof.
  split; [|split].
  - intros s order key value Horder. split.
    + by apply (QueryClientsIn_NoDup s).
    + intros clientID. by apply QueryClientsIn_elem.
  - intros s key value. unfold QueryClients. split.
    + apply (QueryClientsIn_NoDup s), range_order_map_to_list.
    + intros clientID. apply QueryClientsIn_elem, range_order_map_to_list.
  - intros order Horder. apply NoDup_Permutation.
    + by apply (QueryClientsIn_NoDup storeABC).
    + apply NoDup_cons. split; [|apply NoDup_singleton].
      by intros [=]%list_elem_of_singleton.
    + intros clientID. rewrite (QueryClientsIn_elem storeABC) by done.
      unfold matching, storeABC, Set_, clientOrNew, NewContextStore. simpl.
      rewrite elem_of_cons, list_elem_of_singleton.
      split.
      * intros (client & Hctx & Hval).
        apply lookup_insert_Some in Hctx as [[<- <-]|[_ Hctx]]; [done|].
        apply lookup_insert_Some in Hctx as [[<- <-]|[_ Hctx]]; [auto|].
        apply lookup_insert_Some in Hctx as [[<- <-]|[_ Hctx]]; [auto|].
        by rewrite lookup_empty in Hctx.
      * intros [->| ->]; eexists; split; reflexivity.
Qed.

Lemma QueryClients_exact_witness :
  QueryClientsIn [("C", {| Values := {["x" := "2"]} |});
                  ("B", {| Values := {["x" := "1"]} |});
                  ("A", {| Values := {["x" := "1"]} |})] "x" "1"
  ≡ₚ ["A"; "B"].
Proof.
  apply (proj2 (proj2 QueryClients_exact)).
  unfold range_order. vm_compute map_to_list.
  apply perm_skip, perm_swap.
Defined.

(** *** Isolation *)

Lemma Set_other_client s clientID other key value :
  other ≠ clientID →
  contexts (Set_ s clientID key value) !! other = contexts s !! other.
Proof. intros Hne. unfold Set_. simpl. by rewrite lookup_insert_ne. Qed.

Lemma SetMultipleIn_other_client order s clientID other :
  other ≠ clientID →
  contexts (SetMultipleIn order s clientID) !! other = contexts s !! other.
Proof. intros Hne. unfold SetMultipleIn. simpl. by rewrite lookup_insert_ne. Qed.

Lemma Remove_other_client s clientID other key :
  other ≠ clientID →
  contexts (Remove s clientID key) !! other = contexts s !! other.
Proof.
  intros Hne. unfold Remove.
  destruct (contexts s !! clientID); [|done].
  simpl. by rewrite lookup_insert_ne.
Qed.

Lemma Clear_other_client s clientID other :
  other ≠ clientID →
  contexts (Clear s clientID) !! other = contexts s !! other.
Proof. intros Hne. unfold Clear. simpl. by rewrite lookup_delete_ne. Qed.

Lemma Set_other_key s clientID key key' value :
  key' ≠ key →
  Get (Set_ s clientID key value) clientID key' = Get s clientID key'.
Proof.
  intros Hne. unfold Get, Set_, clientOrNew. simpl.
  rewrite lookup_insert_eq. simpl. rewrite lookup_insert_ne by done.
  destruct (contexts s !! clientID); [done|]. simpl. by rewrite lookup_empty.
Qed.

Lemma Remove_other_key s clientID key key' :
  key' ≠ key →
  Get (Remove s clientID key) clientID key' = Get s clientID key'.
Proof.
  intros Hne. unfold Get, Remove.
  destruct (contexts s !! clientID) as [client|] eqn:E; simpl.
  - rewrite lookup_insert_eq. simpl. by rewrite lookup_delete_ne.
  - by rewrite E.
Qed.

(** In whatever order [SetMultiple] ranges over [values], the store it
    leaves is the one where the client's context has the entries of
    [values] over its former entries. *)
Lemma SetMultipleIn_range order s clientID values :
  range_order values order →
  SetMultipleIn order s clientID
  = {| contexts :=
         <[clientID := {| Values := values ∪ Values (clientOrNew s clientID) |}]>
           (contexts s) |}.
Proof.
  intros Horder. unfold SetMultipleIn, assignAll.
  by rewrite (foldl_insert_range values).
Qed.

(** C10.  [Set], [SetMultiple], [Remove] and [Clear] on one client
    leave the context of every other client as it was, and [Set] and
    [Remove] of one key leave every other key of the same client as it
    was. *)
Theorem Store_isolation s clientID other key key' value values order :
  (other ≠ clientID →
     contexts (Set_ s clientID key value) !! other = contexts s !! other
     ∧ contexts (SetMultipleIn order s clientID) !! other = contexts s !! other
     ∧ contexts (SetMultiple s clientID values) !! other = contexts s !! other
     ∧ contexts (Remove s clientID key) !! other = contexts s !! other
     ∧ contexts (Clear s clientID) !! other = contexts s !! other)
  ∧ (key' ≠ key →
       Get (Set_ s clientID key value) clientID key' = Get s clientID key'
       ∧ Get (Remove s clientID key) clientID key' = Get s clientID key').
Proof.
  split.
  - intros Hne. unfold SetMultiple.
    repeat split;
      auto using Set_other_client, SetMultipleIn_other_client,
        Remove_other_client, Clear_other_client.
  - intros Hne. split; auto using Set_other_key, Remove_other_key.
Qed.

Lemma Store_isolation_witness :
  contexts (Clear storeABC "A") !! "B" = contexts storeABC !! "B"
  ∧ Get (Remove storeABC "A" "x") "A" "y" = Get storeABC "A" "y".
Proof.
  assert (Hclient : "B" ≠ "A") by discriminate.
  assert (Hkey : "y" ≠ "x") by discriminate.
  destruct (Store_isolation storeABC "A" "B" "x" "y" "1" ∅ [])
    as [Hother Hsame].
  split.
  - apply (Hother Hclient).
  - apply (Hsame Hkey).
Defined.

Lemma Store_get_set_clear_witness :
  Get (Set_ storeABC "A" "y" "7") "A" "y" = ("7", true)
  ∧ Get (Clear storeABC "A") "A" "x" = ("", false)
  ∧ Get storeABC "D" "x" = ("", false).
Proof.
  destruct (Store_get_set_clear storeABC "A" "y" "7") as (Hset & Hclear & _).
  destruct (Store_get_set_clear storeABC "D" "x" "") as (_ & _ & Habsent & _).
  split; [exact Hset|]. split; [apply Hclear|].
  apply Habsent. left. reflexivity.
Defined.

End StoreClaims.

(** ** The connection handler: the claims *)

Section HandlerClaims.
Import Strings protocol state scenario server.

Lemma Format_single msgType k v :
  Format (NewMessage msgType {[k := v]}) = msgType +:+ ":" +:+ k +:+ "=" +:+ v.
Proof.
  unfold Format, FormatIn, NewMessage. simpl.
  by rewrite map_to_list_singleton.
Qed.

Lemma setAll_store c order :
  id (setAll c order) = id c
  ∧ conn (setAll c order) = conn c
  ∧ store (setAll c order) = set_calls (store c) (id c) order.
Proof.
  unfold setAll, set_calls. revert c.
  induction order as [|kv order IH]; intros c; simpl; [done|].
  destruct (IH {| id := id c;
                  store := Set_ (store c) (id c) kv.1 kv.2;
                  conn := conn c |}) as (-> & -> & ->).
  done.
Qed.

(** The calls, one after the other, amount to one update of the
    client's context; no call, no context. *)
Lemma set_calls_contexts s clientID calls :
  calls ≠ [] →
  set_calls s clientID calls
  = {| contexts :=
         <[clientID :=
             {| Values := assignAll (Values (clientOrNew s clientID)) calls |}]>
           (contexts s) |}.
Proof.
  unfold set_calls, assignAll. revert s.
  induction calls as [|[k v] [|kv calls] IH]; intros s Hne; [done|done|].
  change (foldl _ s ((k, v) :: kv :: calls))
    with (foldl (λ s kv, Set_ s clientID kv.1 kv.2)
            (Set_ s clientID k v) (kv :: calls)).
  rewrite IH by done.
  assert (Hclient : clientOrNew (Set_ s clientID k v) clientID
                    = {| Values := <[k := v]> (Values (clientOrNew s clientID)) |}).
  { unfold clientOrNew at 1. unfold Set_. simpl.
    by rewrite lookup_insert_eq. }
  rewrite Hclient. unfold Set_. simpl.
  by rewrite insert_insert_eq.
Qed.

Lemma set_calls_Get s clientID values order :
  range_order values order →
  (∀ key value, values !! key = Some value →
      Get (set_calls s clientID order) clientID key = (value, true))
  ∧ (∀ key, values !! key = None →
      Get (set_calls s clientID order) clientID key = Get s clientID key)
  ∧ (∀ other, other ≠ clientID →
      contexts (set_calls s clientID order) !! other = contexts s !! other).
Proof.
  intros Horder.
  destruct (decide (order = [])) as [->|Hne].
  { apply range_order_nil in Horder. subst values.
    split; [|done]. intros key value. by rewrite lookup_empty. }
  rewrite set_calls_contexts by done. unfold assignAll.
  rewrite (foldl_insert_range values) by done.
  unfold Get, clientOrNew. simpl.
  split; [|split].
  - intros key value Hval. rewrite lookup_insert_eq. simpl.
    by rewrite (lookup_union_Some_l _ _ _ _ Hval).
  - intros key Hnone. rewrite lookup_insert_eq. simpl.
    rewrite lookup_union_r by done.
    destruct (contexts s !! clientID); [done|]. simpl. by rewrite lookup_empty.
  - intros other Hother. by rewrite lookup_insert_ne.
Qed.

(** C4.  A PING message gets one response, a PONG whose [time]
    parameter is the server's Unix time, and leaves the store alone.  A
    CONTEXT message makes the handler call
    [Store.Set(connectionID, key, value)] once for every pair of its
    parameters, after which each of these keys reads back its value, and
    gets one response, [ACK:status=ok].  A message of any other type
    changes nothing and gets no response. *)
Theorem handleMessage_dispatch now order c msg :
  range_order (Params msg) order →
  let c' := handleMessageIn now order c msg in
  id c' = id c
  ∧ (Type_ msg = TypePing →
       store c' = store c
       ∧ conn c' = conn c ++ ["PONG:time=" +:+ Fmt.Sprintf_d now +:+ newline])
  ∧ (Type_ msg = TypeContext →
       store c' = set_calls (store c) (id c) order
       ∧ (∀ key value, Params msg !! key = Some value →
             Get (store c') (id c) key = (value, true))
       ∧ conn c' = conn c ++ ["ACK:status=ok" +:+ newline])
  ∧ (Type_ msg ≠ TypePing → Type_ msg ≠ TypeContext → c' = c).
Proof.
  intros Horder. unfold handleMessageIn. cbv zeta.
  destruct (decide (Type_ msg = TypePing)) as [Hping|Hping].
  { unfold handlePing, Send. rewrite Format_single. simpl.
    split; [done|]. split; [done|]. split; [|done].
    rewrite Hping. discriminate. }
  destruct (decide (Type_ msg = TypeContext)) as [Hctx|Hctx].
  - unfold handleContextUpdateIn, Send. rewrite Format_single. simpl.
    destruct (setAll_store c order) as (Hid & Hconn & Hstore).
    rewrite Hid, Hconn, Hstore.
    split; [done|]. split; [done|]. split; [|done].
    intros _. split; [done|]. split; [|done].
    intros key value Hval.
    by apply (set_calls_Get (store c) (id c) (Params msg) order Horder).
  - done.
Qed.

Lemma handleMessage_dispatch_witness :
  let c := {| id := "10.0.0.7:5151-1"; store := NewContextStore; conn := [] |} in
  let msg := NewMessage "CONTEXT" (<["name" := "alice"]> {["room" := "42"]}) in
  let c' := handleMessageIn 1700000000 [("room", "42"); ("name", "alice")] c msg in
  Get (store c') "10.0.0.7:5151-1" "name" = ("alice", true)
  ∧ conn c' = ["ACK:status=ok" +:+ newline].
Proof.
  intros c msg.
  assert (Horder : range_order (Params msg) [("room", "42"); ("name", "alice")]).
  { unfold range_order. vm_compute map_to_list. apply perm_swap. }
  destruct (handleMessage_dispatch 1700000000 _ c msg Horder)
    as (_ & _ & Hcontext & _).
  destruct (Hcontext eq_refl) as (_ & Hget & Hconn).
  split.
  - apply Hget. reflexivity.
  - exact Hconn.
Defined.

(** The two exchanges of the specification, from the line received to
    the line sent. *)
Example ping_exchange :
  let c := {| id := "10.0.0.7:5151-1"; store := NewContextStore; conn := [] |} in
  (c' ← match Parse ("PING:" +:+ newline) with
        | Ok msg => Some (handleMessage 1700000000 c msg)
        | Err _ => None
        end;
   Some (conn c'))
  = Some ["PONG:time=1700000000" +:+ newline].
Proof. reflexivity. Qed.

Example context_exchange :
  let c := {| id := "10.0.0.7:5151-1"; store := NewContextStore; conn := [] |} in
  (c' ← match Parse ("CONTEXT:name=alice;room=42" +:+ newline) with
        | Ok msg => Some (handleMessage 1700000000 c msg)
        | Err _ => None
        end;
   Some (conn c', GetAll (store c') "10.0.0.7:5151-1"))
  = Some (["ACK:status=ok" +:+ newline],
          (<["name" := "alice"]> {["room" := "42"]}, true)).
Proof. reflexivity. Qed.

End HandlerClaims.

(* ===================================================================== *)
(** * Further properties of the code                                      *)
(* ===================================================================== *)

(** ** More on the white space scan *)

Section ScanMore.
Import Strings.
Variable sp1 : ascii → bool.
Variable sp2 : ascii → ascii → bool.
Variable sp3 : ascii → ascii → ascii → bool.

(** A scan that removes nothing found no white space at the front. *)
Lemma dropSpace_fixed_head a s1 :
  dropSpace sp1 sp2 sp3 (String a s1) = String a s1 →
  sp1 a = false
  ∧ (∀ b s2, s1 = String b s2 → sp2 a b = false)
  ∧ (∀ b c s3, s1 = String b (String c s3) → sp3 a b c = false).
Proof.
  intros Hfix.
  destruct (dropSpace_cases sp1 sp2 sp3 a s1)
    as [[_ E]|[(b & s2 & -> & _ & _ & E)
       |[(b & c & s3 & -> & _ & _ & _ & E)|(_ & ? & ? & ?)]]]; [..|done].
  - pose proof (dropSpace_length sp1 sp2 sp3 s1) as Hlen.
    rewrite <- E, Hfix in Hlen. simpl in Hlen. lia.
  - pose proof (dropSpace_length sp1 sp2 sp3 s2) as Hlen.
    rewrite <- E, Hfix in Hlen. simpl in Hlen. lia.
  - pose proof (dropSpace_length sp1 sp2 sp3 s3) as Hlen.
    rewrite <- E, Hfix in Hlen. simpl in Hlen. lia.
Qed.

Lemma dropSpace_head_fixed a s1 :
  sp1 a = false →
  (∀ b s2, s1 = String b s2 → sp2 a b = false) →
  (∀ b c s3, s1 = String b (String c s3) → sp3 a b c = false) →
  dropSpace sp1 sp2 sp3 (String a s1) = String a s1.
Proof.
  intros E1 E2 E3. rewrite dropSpace_eq, E1.
  destruct s1 as [|b [|c s3]]; [done|..].
  - by rewrite (E2 b "").
  - by rewrite (E2 b (String c s3)), (E3 b c s3).
Qed.

(** No white space at the front of a string, none at the front of its
    beginnings. *)
Lemma dropSpace_fixed_prefix y z :
  dropSpace sp1 sp2 sp3 (y +:+ z) = y +:+ z →
  dropSpace sp1 sp2 sp3 y = y.
Proof.
  destruct y as [|a y1]; [done|].
  change (String a y1 +:+ z) with (String a (y1 +:+ z)).
  intros (E1 & E2 & E3)%dropSpace_fixed_head.
  apply dropSpace_head_fixed; [done|..].
  - intros b s2 ->. by apply (E2 b (s2 +:+ z)).
  - intros b c s3 ->. by apply (E3 b c (s3 +:+ z)).
Qed.

(** A string that the scan removes whole: the scan goes on in what
    follows. *)
Lemma dropSpace_nil_app t r :
  dropSpace sp1 sp2 sp3 t = "" →
  dropSpace sp1 sp2 sp3 (t +:+ r) = dropSpace sp1 sp2 sp3 r.
Proof.
  induction t as [t IH] using string_length_ind.
  destruct t as [|a t1]; [done|].
  destruct (dropSpace_cases sp1 sp2 sp3 a t1)
    as [[E1 ->]|[(b & t2 & -> & E1 & E2 & ->)
       |[(b & d & t3 & -> & E1 & E2 & E3 & ->)|(-> & _)]]]; [..|done].
  - intros Hnil. rewrite <- (IH t1) by (simpl; lia || done).
    change (String a t1 +:+ r) with (String a (t1 +:+ r)).
    by rewrite dropSpace_eq, E1.
  - intros Hnil. rewrite <- (IH t2) by (simpl; lia || done).
    change (String a (String b t2) +:+ r) with (String a (String b (t2 +:+ r))).
    by rewrite dropSpace_eq, E1, E2.
  - intros Hnil. rewrite <- (IH t3) by (simpl; lia || done).
    change (String a (String b (String d t3)) +:+ r)
      with (String a (String b (String d (t3 +:+ r)))).
    by rewrite dropSpace_eq, E1, E2, E3.
Qed.

(** A byte [c] that is second or third in no encoding: a scan that stops
    before it stops at the same place whatever follows. *)
Lemma dropSpace_app_low t c r :
  (∀ a, sp2 a c = false) →
  (∀ a b, sp3 a c b = false ∧ sp3 a b c = false) →
  dropSpace sp1 sp2 sp3 t ≠ "" →
  dropSpace sp1 sp2 sp3 (t +:+ String c r)
  = dropSpace sp1 sp2 sp3 t +:+ String c r.
Proof.
  intros Hc2 Hc3.
  induction t as [t IH] using string_length_ind.
  destruct t as [|a t1]; [done|].
  destruct (dropSpace_cases sp1 sp2 sp3 a t1)
    as [[E1 ->]|[(b & t2 & -> & E1 & E2 & ->)
       |[(b & d & t3 & -> & E1 & E2 & E3 & ->)|(-> & E1 & E2 & E3)]]].
  - intros Hne. rewrite <- IH by (simpl; lia || done).
    change (String a t1 +:+ String c r) with (String a (t1 +:+ String c r)).
    by rewrite dropSpace_eq, E1.
  - intros Hne. rewrite <- IH by (simpl; lia || done).
    change (String a (String b t2) +:+ String c r)
      with (String a (String b (t2 +:+ String c r))).
    by rewrite dropSpace_eq, E1, E2.
  - intros Hne. rewrite <- IH by (simpl; lia || done).
    change (String a (String b (String d t3)) +:+ String c r)
      with (String a (String b (String d (t3 +:+ String c r)))).
    by rewrite dropSpace_eq, E1, E2, E3.
  - intros _.
    change (String a t1 +:+ String c r) with (String a (t1 +:+ String c r)).
    apply dropSpace_head_fixed; [done|..].
    + intros b s2 Hs. destruct t1 as [|b' t2]; simpl in Hs.
      * injection Hs as <- _. apply Hc2.
      * injection Hs as <- _. by apply (E2 b' t2).
    + intros b d s3 Hs. destruct t1 as [|b' [|d' t3]]; simpl in Hs.
      * injection Hs as <- _. apply Hc3.
      * injection Hs as <- <- _. apply Hc3.
      * injection Hs as <- <- _. by apply (E3 b' d' t3).
Qed.

End ScanMore.

(** ** More on TrimSpace *)

Section TrimMore.
Import Strings session.

Lemma asciiSpace_low c : asciiSpace c = true → (code c < 128)%N.
Proof.
  unfold asciiSpace.
  rewrite orb_true_iff, andb_true_iff, !N.leb_le, N.eqb_eq. lia.
Qed.

Lemma isSpace2_low a c : (code c < 128)%N → isSpace2 a c = false ∧ isSpace2 c a = false.
Proof.
  intros Hc. split; (destruct (isSpace2 _ _) eqn:E; [|done]);
    apply isSpace2_high in E; lia.
Qed.

Lemma isSpace3_low a b c :
  (code c < 128)%N →
  isSpace3 c a b = false ∧ isSpace3 a c b = false ∧ isSpace3 a b c = false.
Proof.
  intros Hc. repeat split; (destruct (isSpace3 _ _ _) eqn:E; [|done]);
    apply isSpace3_high in E; lia.
Qed.

Lemma TrimRight_prefix s : ∃ z, s = TrimRight s +:+ z.
Proof.
  unfold TrimRight, trimRev.
  destruct (dropSpace_suffix asciiSpace (λ c b, isSpace2 b c)
              (λ c b a, isSpace3 a b c) (String.rev s)) as [p Hp].
  exists (String.rev p).
  rewrite <- rev_append, <- Hp. by rewrite rev_involutive.
Qed.

Lemma TrimSpace_idem s : TrimSpace (TrimSpace s) = TrimSpace s.
Proof.
  unfold TrimSpace at 1.
  assert (Hleft : TrimLeft (TrimSpace s) = TrimSpace s).
  { destruct (TrimRight_prefix (TrimLeft s)) as [z Hz].
    fold (TrimSpace s) in Hz.
    apply (dropSpace_fixed_prefix _ _ _ _ z).
    rewrite <- Hz. apply TrimLeft_idem. }
  rewrite Hleft. apply TrimSpace_TrimRight.
Qed.

Lemma ContainsByte_rev s c : ContainsByte (String.rev s) c = ContainsByte s c.
Proof.
  induction s as [|a s IH]; [done|].
  rewrite rev_cons, ContainsByte_app, IH. simpl.
  by rewrite orb_false_r, orb_comm.
Qed.

Lemma TrimRight_contains s c :
  ContainsByte s c = false → ContainsByte (TrimRight s) c = false.
Proof.
  intros H. unfold TrimRight, trimRev.
  rewrite ContainsByte_rev. apply dropSpace_contains.
  by rewrite ContainsByte_rev.
Qed.

Lemma TrimSpace_contains s c :
  ContainsByte s c = false → ContainsByte (TrimSpace s) c = false.
Proof. intros H. by apply TrimRight_contains, TrimLeft_contains. Qed.

Lemma TrimLeft_space_l c s : asciiSpace c = true → TrimLeft (String c s) = TrimLeft s.
Proof. intros Hc. unfold TrimLeft. by rewrite dropSpace_eq, Hc. Qed.

Lemma TrimRight_space_r c s :
  asciiSpace c = true → TrimRight (s +:+ String c "") = TrimRight s.
Proof.
  intros Hc. unfold TrimRight, trimRev.
  rewrite rev_append. simpl. by rewrite dropSpace_eq, Hc.
Qed.

Lemma TrimRight_nil : TrimRight "" = "".
Proof. reflexivity. Qed.

Lemma TrimSpace_space_r c s :
  asciiSpace c = true → TrimSpace (s +:+ String c "") = TrimSpace s.
Proof.
  intros Hc. unfold TrimSpace.
  destruct (decide (TrimLeft s = "")) as [Hnil|Hne].
  - unfold TrimLeft in *. rewrite dropSpace_nil_app by done.
    rewrite Hnil. by rewrite dropSpace_eq, Hc.
  - pose proof (asciiSpace_low c Hc) as Hlow.
    unfold TrimLeft in *. rewrite dropSpace_app_low; [| | |done].
    + by apply TrimRight_space_r.
    + intros a. apply (proj1 (isSpace2_low a c Hlow)).
    + intros a b.
      destruct (isSpace3_low a b c Hlow) as (_ & H2 & H3). by split.
Qed.

(** ASCII white space around a string does not count. *)
Lemma TrimSpace_pad before s after :
  blank before = true → blank after = true →
  TrimSpace (before +:+ s +:+ after) = TrimSpace s.
Proof.
  intros Hb Ha.
  induction before as [|c before IH]; simpl in *.
  - clear Hb. revert s.
    induction after as [|c after IH]; intros s; simpl in *.
    + by rewrite append_nil_r.
    + apply andb_true_iff in Ha as [Hc Ha].
      change (s +:+ String c after) with (s +:+ (String c "" +:+ after)).
      rewrite <- append_assoc, IH by done. by apply TrimSpace_space_r.
  - apply andb_true_iff in Hb as [Hc Hb].
    unfold TrimSpace. rewrite TrimLeft_space_l by done. by apply IH.
Qed.


End TrimMore.

(** ** More on the protocol codec *)

Section CodecMore.
Import Strings protocol wire session.

Lemma Split_not_nil s sep : Split s sep ≠ [].
Proof.
  destruct s as [|c r]; simpl; [done|].
  destruct (decide (c = sep)); [done|]. by destruct (Split r sep).
Qed.

(** The pieces of a text with a separator between two parts are the
    pieces of the one part and then those of the other. *)
Lemma Split_app_sep before sep after :
  Split (before +:+ String sep after) sep = Split before sep ++ Split after sep.
Proof.
  induction before as [|c before IH]; simpl.
  - by rewrite decide_True.
  - destruct (decide (c = sep)) as [->|Hne].
    + by rewrite IH.
    + rewrite IH.
      pose proof (Split_not_nil before sep) as Hnil.
      by destruct (Split before sep).
Qed.

Lemma Split_pieces_free s sep piece :
  piece ∈ Split s sep → ContainsByte piece sep = false.
Proof.
  revert piece. induction s as [|c r IH]; intros piece; simpl.
  - by intros ->%list_elem_of_singleton.
  - destruct (decide (c = sep)) as [->|Hne].
    + intros [->|Hin]%elem_of_cons; [done | by apply IH].
    + destruct (Split r sep) as [|first pieces] eqn:E.
      * intros ->%list_elem_of_singleton. simpl.
        by rewrite bool_decide_eq_false_2.
      * intros [->|Hin]%elem_of_cons.
        -- simpl. rewrite bool_decide_eq_false_2 by done.
           apply IH, list_elem_of_here.
        -- by apply IH, list_elem_of_further.
Qed.

(** Where an entry of the result of the loop comes from, and what its
    key cannot be. *)
Lemma parsePairs_origin_key paramPairs params params' key value :
  parsePairs paramPairs params = Ok params' →
  params' !! key = Some value →
  params !! key = Some value
  ∨ ∃ pair0 keyText valueText,
      pair0 ∈ paramPairs ∧ pair_parts pair0 keyText valueText
      ∧ key = TrimSpace keyText ∧ value = TrimSpace valueText ∧ key ≠ "".
Proof.
  revert params. induction paramPairs as [|pair0 rest IH]; intros params; simpl.
  - intros [= ->]. auto.
  - rewrite parsePair_parts.
    destruct (Cut pair0 "=") as [[keyText valueText]|] eqn:Hcut; [|done].
    destruct (decide (TrimSpace keyText = "")); [done|]. simpl.
    intros Hrest Hlook.
    destruct (IH _ Hrest Hlook)
      as [Hnew|(pair1 & k1 & v1 & Hin & Hparts & -> & -> & Hk)].
    + apply lookup_insert_Some in Hnew as [[<- <-]|[_ Hold]]; [|auto].
      right. exists pair0, keyText, valueText.
      split; [apply list_elem_of_here|done].
    + right. exists pair1, k1, v1. split; [by apply list_elem_of_further|done].
Qed.

(** What [Parse] returns is canonical. *)
Lemma Parse_Ok_canonical raw m : Parse raw = Ok m → canonical m.
Proof.
  rewrite Parse_parts.
  destruct (decide (TrimSpace raw = "")); [done|].
  destruct (Cut (TrimSpace raw) ":") as [[typePortion section]|] eqn:Hcut;
    [|done].
  destruct (decide (TrimSpace typePortion = "")) as [|Hty]; [done|].
  apply Cut_Some in Hcut as [_ Hfree].
  unfold parseParams.
  destruct (decide (section = "")) as [->|Hsec]; simpl.
  { intros [= <-]. unfold canonical. simpl.
    split; [done|]. split; [apply TrimSpace_idem|].
    split; [by apply TrimSpace_contains|].
    intros key value. by rewrite lookup_empty. }
  destruct (parsePairs (Split section ";") ∅) as [params|e] eqn:Hpairs;
    simpl; [|done].
  intros [= <-]. unfold canonical. simpl.
  split; [done|]. split; [apply TrimSpace_idem|].
  split; [by apply TrimSpace_contains|].
  intros key value Hlook.
  destruct (parsePairs_origin_key _ _ _ _ _ Hpairs Hlook)
    as [Hnone|(pair0 & keyText & valueText & Hin & Hparts & -> & -> & Hk)].
  { by rewrite lookup_empty in Hnone. }
  apply Split_pieces_free in Hin.
  apply Cut_Some in Hparts as [-> Hkey].
  rewrite !ContainsByte_app in Hin.
  apply orb_false_iff in Hin as [Hk1 Hv1]. simpl in Hv1.
  split; [done|]. split; [apply TrimSpace_idem|].
  split; [apply TrimSpace_idem|].
  split; [by apply TrimSpace_contains|].
  split; by apply TrimSpace_contains.
Qed.

(** X1.  Every message that [Parse] returns has a type tag that is not
    empty, has no white space at its ends and holds no [:]; its keys are
    not empty, have no white space at their ends and hold neither [=] nor
    [;]; its values have no white space at their ends and hold no [;]. *)
Theorem Parse_returns_canonical raw m : Parse raw = Ok m → canonical m.
Proof. apply Parse_Ok_canonical. Qed.

Lemma Parse_returns_canonical_witness :
  canonical {| Type_ := "CONTEXT";
               Params := <["url" := "http://h:80/?a=b"]> {["name" := "al ice"]} |}.
Proof.
  apply (Parse_returns_canonical
           "  CONTEXT : url = http://h:80/?a=b ; name=al ice  ").
  reflexivity.
Defined.

(** X2.  The messages that come back unchanged from [Parse] after
    [Format], in whatever order [Format] writes the parameters, are
    exactly the canonical ones.  Values may hold [:] and [=]. *)
Theorem Parse_Format_exact m order :
  range_order (Params m) order →
  Parse (FormatIn order m) = Ok m ↔ canonical m.
Proof.
  intros Horder. split; [apply Parse_Ok_canonical|].
  intros (Hne & Hty & Hcolon & Hentries).
  by apply Parse_FormatIn.
Qed.

Lemma Parse_Format_exact_witness :
  Parse (FormatIn [("url", "http://h:80/?a=b")]
           {| Type_ := "CONTEXT"; Params := {["url" := "http://h:80/?a=b"]} |})
  = Ok {| Type_ := "CONTEXT"; Params := {["url" := "http://h:80/?a=b"]} |}.
Proof.
  apply (Parse_Format_exact
           {| Type_ := "CONTEXT"; Params := {["url" := "http://h:80/?a=b"]} |}).
  - unfold range_order. simpl. by rewrite map_to_list_singleton.
  - apply (Parse_Ok_canonical "CONTEXT:url=http://h:80/?a=b"). reflexivity.
Defined.

Lemma Parse_TrimSpace_eq raw raw' :
  TrimSpace raw = TrimSpace raw' → Parse raw = Parse raw'.
Proof. intros H. unfold Parse. by rewrite H. Qed.

(** X3.  [Parse] does not see ASCII white space (blanks, tabs, carriage
    returns, line feeds) before or after the line: the line as read, with
    its line feed, parses as the line without it. *)
Theorem Parse_padding before raw after :
  blank before = true → blank after = true →
  Parse (before +:+ raw +:+ after) = Parse raw.
Proof.
  intros Hb Ha. by apply Parse_TrimSpace_eq, TrimSpace_pad.
Qed.

Lemma Parse_padding_witness :
  Parse ("  " +:+ "PING:" +:+ String "013" (String "010" "")) = Parse "PING:".
Proof.
  apply Parse_padding; reflexivity.
Defined.

(** X4.  In a line with a type, the first pair that is malformed decides
    the error: a pair without [=] is reported with its text, a pair whose
    key is blank as an empty key; the pairs after it are not looked at. *)
Theorem Parse_first_malformed raw typePortion section before pair0 after :
  line_parts raw typePortion section →
  TrimSpace typePortion ≠ "" →
  section ≠ "" →
  pairs_of section = before ++ pair0 :: after →
  Forall well_formed_pair before →
  (ContainsByte pair0 "=" = false →
     Parse raw = Err (ErrInvalidParameterFormat pair0))
  ∧ (∀ keyText valueText,
        pair_parts pair0 keyText valueText → TrimSpace keyText = "" →
        Parse raw = Err ErrEmptyParameterKey).
Proof.
  unfold line_parts, pairs_of. intros Hline Hty Hsec Hsplit Hbefore.
  assert (Hraw : TrimSpace raw ≠ "") by (by intros E; rewrite E in Hline).
  rewrite Parse_parts, Hline, !decide_False by done.
  unfold parseParams. rewrite decide_False by done.
  rewrite Hsplit, parsePairs_app.
  destruct (parsePairs_Ok before ∅ Hbefore) as [params0 ->]. simpl.
  rewrite parsePair_parts. split.
  - intros Hnone%Cut_None. by rewrite Hnone.
  - intros keyText valueText Hparts Hkey. unfold pair_parts in Hparts.
    by rewrite Hparts, decide_True.
Qed.

Lemma Parse_first_malformed_witness :
  Parse "CONTEXT:a=1;oops;=2" = Err (ErrInvalidParameterFormat "oops").
Proof.
  assert (Hty : TrimSpace "CONTEXT" ≠ "") by discriminate.
  assert (Hsec : "a=1;oops;=2" ≠ "") by discriminate.
  apply (Parse_first_malformed "CONTEXT:a=1;oops;=2" "CONTEXT" "a=1;oops;=2"
           ["a=1"] "oops" ["=2"]).
  - reflexivity.
  - exact Hty.
  - exact Hsec.
  - reflexivity.
  - apply Forall_cons_2; [|apply Forall_nil_2].
    exists "a", "1". split; [reflexivity|discriminate].
  - reflexivity.
Defined.

Lemma append_last_inv x y a b :
  x +:+ String a "" = y +:+ String b "" → x = y ∧ a = b.
Proof.
  intros H. apply (f_equal String.rev) in H.
  rewrite !rev_append in H. simpl in H. injection H as -> H.
  split; [|done]. by rewrite <- (rev_involutive x), H, rev_involutive.
Qed.

Lemma string_last s : s ≠ "" → ∃ init c, s = init +:+ String c "".
Proof.
  intros Hne. destruct (String.rev s) as [|c r] eqn:E.
  - by apply rev_eq_nil in E.
  - exists (String.rev r), c.
    by rewrite <- (rev_involutive s), E, rev_cons.
Qed.

(** X5.  A line that ends with the pair separator is refused: the text
    after the last [;] is an empty pair.  [Format] writes no such
    separator. *)
Theorem Parse_trailing_separator raw body :
  TrimSpace raw = body +:+ ";" → ∃ e, Parse raw = Err e.
Proof.
  intros Hraw. rewrite Parse_parts.
  destruct (decide (TrimSpace raw = "")); [eauto|].
  destruct (Cut (TrimSpace raw) ":") as [[typePortion section]|] eqn:Hcut;
    [|eauto].
  destruct (decide (TrimSpace typePortion = "")); [eauto|].
  apply Cut_Some in Hcut as [Hline _]. rewrite Hraw in Hline.
  assert (Hsec : ∃ init, section = init +:+ ";").
  { destruct (decide (section = "")) as [->|Hne].
    - by apply append_last_inv in Hline as [_ ?].
    - destruct (string_last section Hne) as (init & c & ->).
      exists init.
      change (typePortion +:+ String ":" (init +:+ String c ""))
        with (typePortion +:+ (String ":" init +:+ String c "")) in Hline.
      rewrite <- append_assoc in Hline.
      by apply append_last_inv in Hline as [_ <-]. }
  destruct Hsec as [init ->].
  destruct (proj2 (parseParams_Err (init +:+ ";"))) as [e ->]; [|simpl; eauto].
  split; [by intros [_ ?]%append_eq_nil|].
  apply Exists_exists. exists "". split; [|by left].
  unfold pairs_of. change (init +:+ ";") with (init +:+ String ";" "").
  rewrite Split_app_sep. apply elem_of_app. right. apply list_elem_of_here.
Qed.

Lemma Parse_trailing_separator_witness : ∃ e, Parse "CONTEXT:name=alice;" = Err e.
Proof.
  apply (Parse_trailing_separator "CONTEXT:name=alice;" "CONTEXT:name=alice").
  reflexivity.
Defined.

End CodecMore.

(** ** More on the context store *)

Section StoreMore.
Import state scenario session.

Lemma assignAll_copy (m : gmap string string) order :
  range_order m order → assignAll ∅ order = m.
Proof.
  intros Horder. unfold assignAll.
  rewrite (foldl_insert_range m) by done. by rewrite (right_id_L ∅ (∪)).
Qed.

Lemma GetAll_eq s clientID :
  GetAll s clientID
  = match contexts s !! clientID with
    | Some client => (Values client, true)
    | None => (∅, false)
    end.
Proof.
  unfold GetAll. destruct (contexts s !! clientID) as [client|]; [|done].
  by rewrite (assignAll_copy (Values client)) by apply range_order_map_to_list.
Qed.

Lemma ClientContext_eta client : {| Values := Values client |} = client.
Proof. by destruct client. Qed.

Lemma ContextStore_eta s : {| contexts := contexts s |} = s.
Proof. by destruct s. Qed.

(** X6.  [GetAll] returns the client's values, whatever the order of its
    copying loop, with [found] telling whether the client has a context;
    it agrees with [Get] on every key. *)
Theorem GetAll_copy s clientID :
  (∀ client order,
      contexts s !! clientID = Some client →
      range_order (Values client) order →
      assignAll ∅ order = Values client
      ∧ GetAll s clientID = (Values client, true))
  ∧ (contexts s !! clientID = None → GetAll s clientID = (∅, false))
  ∧ (∀ key,
        Get s clientID key
        = match (GetAll s clientID).1 !! key with
          | Some value => (value, true)
          | None => ("", false)
          end).
Proof.
  split; [|split].
  - intros client order Hclient Horder.
    split; [by apply assignAll_copy|]. by rewrite GetAll_eq, Hclient.
  - intros Hnone. by rewrite GetAll_eq, Hnone.
  - intros key. rewrite GetAll_eq. unfold Get.
    destruct (contexts s !! clientID) as [client|]; [done|].
    simpl. by rewrite lookup_empty.
Qed.

Lemma GetAll_copy_witness :
  assignAll ∅ [("x", "1")] = {["x" := "1"]}
  ∧ GetAll storeABC "A" = ({["x" := "1"]}, true).
Proof.
  assert (Hclient : contexts storeABC !! "A" = Some {| Values := {["x" := "1"]} |})
    by reflexivity.
  assert (Horder : range_order (Values {| Values := {["x" := "1"]} |}) [("x", "1")]).
  { unfold range_order. simpl. by rewrite map_to_list_singleton. }
  exact (proj1 (GetAll_copy storeABC "A") _ _ Hclient Horder).
Defined.

(** X7.  After [SetMultiple], in whatever order it ranges over [values],
    every key of [values] reads back its value, every other key of the
    client reads as before, and the client has a context, made of
    [values] over its former values, even when [values] is empty. *)
Theorem SetMultiple_effect order s clientID values :
  range_order values order →
  let s' := SetMultipleIn order s clientID in
  (∀ key value, values !! key = Some value →
      Get s' clientID key = (value, true))
  ∧ (∀ key, values !! key = None → Get s' clientID key = Get s clientID key)
  ∧ GetAll s' clientID = (values ∪ valuesOf s clientID, true).
Proof.
  intros Horder. cbv zeta. rewrite (SetMultipleIn_range _ _ _ values) by done.
  rewrite GetAll_eq. unfold Get, valuesOf, clientOrNew. simpl.
  rewrite !lookup_insert_eq. simpl.
  split; [|split; [|done]].
  - intros key value Hval. by rewrite (lookup_union_Some_l _ _ _ _ Hval).
  - intros key Hnone. rewrite lookup_union_r by done.
    destruct (contexts s !! clientID); [done|]. simpl. by rewrite lookup_empty.
Qed.

Lemma SetMultiple_effect_witness :
  GetAll (SetMultipleIn [] NewContextStore "fresh") "fresh" = (∅, true).
Proof.
  assert (Horder : range_order (∅ : gmap string string) []).
  { unfold range_order. by rewrite map_to_list_empty. }
  exact (proj2 (proj2 (SetMultiple_effect [] NewContextStore "fresh" ∅ Horder))).
Defined.

(** X8.  [SetMultiple] with at least one pair leaves the store that the
    calls [Set(clientID, k, v)], one for each pair in the order of its
    loop, leave.  With no pair it still gives a client that had none an
    empty context, which no call of [Set] does. *)
Theorem SetMultiple_as_Sets order s clientID :
  (order ≠ [] → SetMultipleIn order s clientID = set_calls s clientID order)
  ∧ (contexts s !! clientID = None →
       contexts (SetMultiple s clientID ∅) !! clientID = Some {| Values := ∅ |}
       ∧ set_calls s clientID [] = s).
Proof.
  split.
  - intros Hne. by rewrite set_calls_contexts.
  - intros Hnone. split; [|done].
    unfold SetMultiple, SetMultipleIn, clientOrNew. simpl.
    rewrite lookup_insert_eq, Hnone, map_to_list_empty. done.
Qed.

Lemma SetMultiple_as_Sets_witness :
  SetMultipleIn [("x", "1"); ("y", "2")] storeABC "A"
  = Set_ (Set_ storeABC "A" "x" "1") "A" "y" "2".
Proof.
  assert (Hne : [("x", "1"); ("y", "2")] ≠ []) by discriminate.
  exact (proj1 (SetMultiple_as_Sets [("x", "1"); ("y", "2")] storeABC "A") Hne).
Defined.

(** X9.  After [Remove], the key is not found.  [Remove] of a key or of
    a client that is not there leaves the store as it is.  [Remove] never
    takes the client's context away, not even with its last key. *)
Theorem Remove_effect s clientID key :
  Get (Remove s clientID key) clientID key = ("", false)
  ∧ (absent s clientID key → Remove s clientID key = s)
  ∧ (∀ client, contexts s !! clientID = Some client →
        contexts (Remove s clientID key) !! clientID
        = Some {| Values := delete key (Values client) |}).
Proof.
  unfold Remove, Get. split; [|split].
  - destruct (contexts s !! clientID) as [client|] eqn:E; simpl.
    + rewrite lookup_insert_eq. simpl. by rewrite lookup_delete_eq.
    + by rewrite E.
  - intros [Hnone|(client & Hclient & Hkey)].
    + by rewrite Hnone.
    + rewrite Hclient, delete_id, ClientContext_eta, insert_id by done.
      apply ContextStore_eta.
  - intros client ->. simpl. apply lookup_insert_eq.
Qed.

Lemma Remove_effect_witness :
  Remove storeABC "A" "y" = storeABC
  ∧ contexts (Remove storeABC "A" "x") !! "A" = Some {| Values := ∅ |}.
Proof.
  destruct (Remove_effect storeABC "A" "y") as (_ & Hsame & _).
  destruct (Remove_effect storeABC "A" "x") as (_ & _ & Hkeeps).
  split.
  - apply Hsame. right. exists {| Values := {["x" := "1"]} |}.
    split; reflexivity.
  - exact (Hkeeps {| Values := {["x" := "1"]} |} eq_refl).
Defined.

(** X10.  [Clear] of a client that has no context leaves the store as it
    is; after [Clear] the client has no context ([GetAll] finds none);
    and a second [Clear] changes nothing. *)
Theorem Clear_effect s clientID :
  (contexts s !! clientID = None → Clear s clientID = s)
  ∧ GetAll (Clear s clientID) clientID = (∅, false)
  ∧ Clear (Clear s clientID) clientID = Clear s clientID.
Proof.
  unfold Clear. split; [|split].
  - intros Hnone. rewrite delete_id by done. apply ContextStore_eta.
  - rewrite GetAll_eq. simpl. by rewrite lookup_delete_eq.
  - simpl. by rewrite delete_delete_eq.
Qed.

Lemma Clear_effect_witness : Clear storeABC "D" = storeABC.
Proof.
  apply (proj1 (Clear_effect storeABC "D")). reflexivity.
Defined.

Lemma ListClients_loop (order : list (string * ClientContext)) clients :
  foldl (λ clients entry, clients ++ [entry.1]) clients order
  = clients ++ order.*1.
Proof.
  revert clients. induction order as [|entry order IH]; intros clients; simpl.
  - by rewrite app_nil_r.
  - by rewrite IH, <- app_assoc.
Qed.

(** X11.  [ListClients], in whatever order it ranges over the store,
    returns each client that has a context once, and no other
    identifier; there are as many as the store has contexts.  A client
    is listed from its first [Set] until its [Clear]. *)
Theorem ListClients_exact s order :
  range_order (contexts s) order →
  NoDup (ListClientsIn order)
  ∧ (∀ clientID,
        clientID ∈ ListClientsIn order ↔ is_Some (contexts s !! clientID))
  ∧ length (ListClientsIn order) = size (contexts s)
  ∧ (∀ clientID key value,
        is_Some (contexts (Set_ s clientID key value) !! clientID)
        ∧ ¬ is_Some (contexts (Clear s clientID) !! clientID)).
Proof.
  intros Horder. unfold ListClientsIn. rewrite ListClients_loop. simpl.
  split; [by apply (range_order_NoDup (contexts s))|].
  split; [|split].
  - intros clientID. rewrite list_elem_of_fmap. split.
    + intros ([id client] & -> & Hin). simpl.
      exists client. by apply (range_order_lookup _ order).
    + intros [client Hclient]. exists (clientID, client).
      split; [done|]. by apply (range_order_lookup (contexts s)).
  - rewrite length_fmap. unfold range_order in Horder.
    by rewrite Horder, length_map_to_list.
  - intros clientID key value. unfold Set_, Clear. simpl.
    rewrite lookup_insert_eq, lookup_delete_eq.
    split; [by eexists | by intros [? ?]].
Qed.

Lemma ListClients_exact_witness :
  "B" ∈ ListClients storeABC ∧ length (ListClients storeABC) = 3.
Proof.
  destruct (ListClients_exact storeABC (map_to_list (contexts storeABC)))
    as (_ & Hin & Hlen & _).
  - apply range_order_map_to_list.
  - split.
    + apply Hin. eexists. reflexivity.
    + exact Hlen.
Defined.



(** X13.  After [Set(clientID, key, value)], [QueryClients(key, value)]
    returns the client, [QueryClients] with the same key and another
    value does not, and every other client is returned as before. *)
Theorem QueryClients_after_Set s clientID key value order :
  range_order (contexts (Set_ s clientID key value)) order →
  clientID ∈ QueryClientsIn order key value
  ∧ (∀ value', value' ≠ value → clientID ∉ QueryClientsIn order key value')
  ∧ (∀ other key' value',
        other ≠ clientID →
        other ∈ QueryClientsIn order key' value' ↔ matching s key' value' other).
Proof.
  intros Horder. split; [|split].
  - apply (QueryClientsIn_elem _ _ _ _ _ Horder).
    unfold matching, Set_. simpl. eexists.
    split; [apply lookup_insert_eq|]. simpl. apply lookup_insert_eq.
  - intros value' Hne Hin.
    apply (QueryClientsIn_elem _ _ _ _ _ Horder) in Hin
      as (client & Hclient & Hval).
    unfold Set_ in Hclient. simpl in Hclient.
    rewrite lookup_insert_eq in Hclient. injection Hclient as <-.
    simpl in Hval. rewrite lookup_insert_eq in Hval. congruence.
  - intros other key' value' Hother.
    rewrite (QueryClientsIn_elem _ _ _ _ _ Horder).
    unfold matching. by rewrite Set_other_client.
Qed.

Lemma QueryClients_after_Set_witness :
  "C" ∈ QueryClients (Set_ storeABC "C" "x" "1") "x" "1".
Proof.
  exact (proj1 (QueryClients_after_Set storeABC "C" "x" "1" _
                  (range_order_map_to_list _))).
Defined.

End StoreMore.

(** ** More on the connection handler *)

Section HandlerMore.
Import Strings protocol state scenario server session.

Lemma setAll_eq c order :
  setAll c order
  = {| id := id c; store := set_calls (store c) (id c) order; conn := conn c |}.
Proof.
  destruct (setAll_store c order) as (Hid & Hconn & Hstore).
  destruct (setAll c order) as [i st cn]. simpl in *. by subst.
Qed.

(** The calls of [Set] for the entries of a map leave the same store in
    whatever order they are made. *)
Lemma set_calls_range s clientID (values : gmap string string) order order' :
  range_order values order → range_order values order' →
  set_calls s clientID order = set_calls s clientID order'.
Proof.
  intros Horder Horder'.
  destruct (decide (order = [])) as [->|Hne].
  { apply range_order_nil in Horder. subst values.
    unfold range_order in Horder'. rewrite map_to_list_empty in Horder'.
    by apply Permutation_nil_r in Horder' as ->. }
  assert (Hne' : order' ≠ []).
  { intros ->. apply range_order_nil in Horder'. subst values.
    unfold range_order in Horder. rewrite map_to_list_empty in Horder.
    by apply Permutation_nil_r in Horder. }
  rewrite !set_calls_contexts by done. unfold assignAll.
  by rewrite !(foldl_insert_range values).
Qed.

(** X14.  What the handler does with a message does not depend on the
    order in which it ranges over the parameters: the store, the
    response and the connection are the same for every order. *)
Theorem handleMessage_any_order now order c msg :
  range_order (Params msg) order →
  handleMessageIn now order c msg = handleMessage now c msg.
Proof.
  intros Horder. unfold handleMessage, handleMessageIn.
  destruct (decide (Type_ msg = TypePing)); [done|].
  destruct (decide (Type_ msg = TypeContext)); [|done].
  unfold handleContextUpdateIn. rewrite !setAll_eq.
  by rewrite (set_calls_range _ _ (Params msg) order (map_to_list (Params msg)))
    by (done || apply range_order_map_to_list).
Qed.

Lemma handleMessage_any_order_witness :
  let c := {| id := "c1"; store := storeABC; conn := [] |} in
  let msg := NewMessage "CONTEXT" (<["name" := "alice"]> {["room" := "42"]}) in
  handleMessageIn 5 [("room", "42"); ("name", "alice")] c msg
  = handleMessage 5 c msg.
Proof.
  intros c msg. apply handleMessage_any_order.
  unfold range_order. vm_compute map_to_list. apply perm_swap.
Defined.

Lemma handleMessage_eq now c msg :
  handleMessage now c msg
  = if decide (Type_ msg = TypePing)
    then {| id := id c; store := store c;
            conn := conn c ++ ["PONG:time=" +:+ Fmt.Sprintf_d now +:+ newline] |}
    else if decide (Type_ msg = TypeContext)
    then {| id := id c;
            store := set_calls (store c) (id c) (map_to_list (Params msg));
            conn := conn c ++ ["ACK:status=ok" +:+ newline] |}
    else c.
Proof.
  unfold handleMessage, handleMessageIn.
  destruct (decide (Type_ msg = TypePing)).
  { unfold handlePing, Send. by rewrite Format_single. }
  destruct (decide (Type_ msg = TypeContext)); [|done].
  unfold handleContextUpdateIn, Send. rewrite Format_single, setAll_eq. done.
Qed.

Lemma handleLine_conn now c line :
  conn (handleLine now c line) = conn c ++ option_list (response now line).
Proof.
  unfold handleLine, response.
  destruct (Parse line) as [msg|e]; [|by rewrite app_nil_r].
  rewrite handleMessage_eq.
  destruct (decide (Type_ msg = TypePing)); [done|].
  destruct (decide (Type_ msg = TypeContext)); [done|].
  by rewrite app_nil_r.
Qed.

Lemma handleLine_id now c line : id (handleLine now c line) = id c.
Proof.
  unfold handleLine. destruct (Parse line) as [msg|e]; [|done].
  rewrite handleMessage_eq.
  destruct (decide (Type_ msg = TypePing)); [done|].
  by destruct (decide (Type_ msg = TypeContext)).
Qed.

Lemma set_calls_other s clientID calls other :
  other ≠ clientID →
  contexts (set_calls s clientID calls) !! other = contexts s !! other.
Proof.
  intros Hne. unfold set_calls. revert s.
  induction calls as [|kv calls IH]; intros s; simpl; [done|].
  by rewrite IH, Set_other_client.
Qed.

Lemma handleLine_other now c line other :
  other ≠ id c →
  contexts (store (handleLine now c line)) !! other = contexts (store c) !! other.
Proof.
  intros Hne. unfold handleLine. destruct (Parse line) as [msg|e]; [|done].
  rewrite handleMessage_eq.
  destruct (decide (Type_ msg = TypePing)); [done|].
  destruct (decide (Type_ msg = TypeContext)); [|done].
  simpl. by apply set_calls_other.
Qed.

Lemma handleLines_snoc reads r c :
  handleLines (reads ++ [r]) c = handleLine r.1 (handleLines reads c) r.2.
Proof. unfold handleLines. by rewrite foldl_app. Qed.

(** X15.  The read loop writes, for the lines it reads, the responses of
    the lines of type PING and CONTEXT, one each, in the order of the
    lines, after what was written before, and nothing for the other
    lines. *)
Theorem handleLines_responses reads c :
  conn (handleLines reads c)
  = conn c ++ omap (λ r, response r.1 r.2) reads.
Proof.
  induction reads as [|r reads IH] using rev_ind.
  - simpl. by rewrite app_nil_r.
  - rewrite handleLines_snoc, handleLine_conn, IH, omap_app, <- app_assoc.
    simpl. by destruct (response r.1 r.2).
Qed.

(** X16.  Through the whole read loop the connection keeps its
    identifier, and the context of every other client stays as it was:
    a connection writes to its own context only. *)
Theorem handleLines_own_context reads c other :
  id (handleLines reads c) = id c
  ∧ (other ≠ id c →
       contexts (store (handleLines reads c)) !! other
       = contexts (store c) !! other).
Proof.
  induction reads as [|r reads IH] using rev_ind; [done|].
  rewrite handleLines_snoc, handleLine_id.
  destruct IH as [Hid Hother]. split; [done|].
  intros Hne. rewrite handleLine_other by (by rewrite Hid). auto.
Qed.

Lemma handleLines_own_context_witness :
  let c := {| id := "A"; store := storeABC; conn := [] |} in
  contexts (store (handleLines [(1%Z, "CONTEXT:x=9"); (2%Z, "PING:")] c)) !! "B"
  = contexts storeABC !! "B".
Proof.
  intros c. assert (Hne : "B" ≠ id c) by discriminate.
  exact (proj2 (handleLines_own_context
                  [(1%Z, "CONTEXT:x=9"); (2%Z, "PING:")] c "B") Hne).
Defined.

(** X17.  A line that [Parse] refuses, or whose type is neither PING nor
    CONTEXT, leaves no trace: the loop ends in the same state as if the
    line had not been sent, so that the lines after it are handled as
    usual. *)
Theorem handleLines_skips now line reads reads' c :
  (∃ e, Parse line = Err e)
  ∨ (∃ msg, Parse line = Ok msg
            ∧ Type_ msg ≠ TypePing ∧ Type_ msg ≠ TypeContext) →
  handleLines (reads ++ (now, line) :: reads') c = handleLines (reads ++ reads') c.
Proof.
  intros Hskip. unfold handleLines. rewrite !foldl_app. simpl. f_equal.
  unfold handleLine.
  destruct Hskip as [[e ->]|(msg & -> & Hping & Hctx)]; [done|].
  rewrite handleMessage_eq. by rewrite !decide_False.
Qed.

Lemma handleLines_skips_witness :
  let c := {| id := "c1"; store := NewContextStore; conn := [] |} in
  conn (handleLines [(1%Z, "GARBAGE"); (2%Z, "PING:")] c)
  = ["PONG:time=2" +:+ newline].
Proof.
  intros c.
  assert (Hskip : (∃ e, Parse "GARBAGE" = Err e)
                  ∨ (∃ msg, Parse "GARBAGE" = Ok msg
                            ∧ Type_ msg ≠ TypePing ∧ Type_ msg ≠ TypeContext)).
  { left. eexists. reflexivity. }
  pose proof (handleLines_skips 1 "GARBAGE" [] [(2%Z, "PING:")] c Hskip) as H.
  simpl app in H. rewrite H. reflexivity.
Defined.






(** X19.  What a CONTEXT line does to the store: with at least one
    parameter, the connection's context is afterwards the parameters
    over its former values; with none, the store is untouched, and a
    connection without a context still has none, although ACK is sent.
    A line of any other type leaves the store as it is. *)
Theorem handleLine_store now c line msg :
  Parse line = Ok msg →
  (Type_ msg = TypeContext → Params msg ≠ ∅ →
     GetAll (store (handleLine now c line)) (id c)
     = (Params msg ∪ valuesOf (store c) (id c), true))
  ∧ (Type_ msg = TypeContext → Params msg = ∅ →
       store (handleLine now c line) = store c
       ∧ response now line = Some ("ACK:status=ok" +:+ newline))
  ∧ (Type_ msg ≠ TypeContext → store (handleLine now c line) = store c).
Proof.
  intros Hparse. unfold handleLine, response. rewrite Hparse, handleMessage_eq.
  split; [|split].
  - intros Hctx Hne. rewrite Hctx. simpl.
    assert (Hcalls : map_to_list (Params msg) ≠ []).
    { intros E. by apply map_to_list_empty_iff in E. }
    rewrite set_calls_contexts, GetAll_eq by done. simpl.
    rewrite lookup_insert_eq. simpl. unfold assignAll.
    by rewrite (foldl_insert_range (Params msg))
      by apply range_order_map_to_list.
  - intros Hctx Hnil. rewrite Hctx, Hnil. simpl.
    by rewrite map_to_list_empty.
  - intros Hctx. destruct (decide (Type_ msg = TypePing)); [done|].
    by rewrite decide_False.
Qed.

Lemma handleLine_store_witness :
  let c := {| id := "A"; store := storeABC; conn := [] |} in
  GetAll (store (handleLine 7 c "CONTEXT:name=alice;room=42")) "A"
  = (<["name" := "alice"]> (<["room" := "42"]> {["x" := "1"]}), true).
Proof.
  intros c.
  assert (Hne : Params (NewMessage "CONTEXT"
                          (<["name" := "alice"]> {["room" := "42"]})) ≠ ∅).
  { intros E. apply (f_equal (λ m : gmap string string, m !! "name")) in E.
    discriminate E. }
  exact (proj1 (handleLine_store 7 c "CONTEXT:name=alice;room=42"
                  (NewMessage "CONTEXT" (<["name" := "alice"]> {["room" := "42"]}))
                  eq_refl) eq_refl Hne).
Defined.

Lemma Set_keeps_found s clientID key value other key' :
  (Get s other key').2 = true →
  (Get (Set_ s clientID key value) other key').2 = true.
Proof.
  intros Hfound.
  destruct (decide (other = clientID)) as [->|Hne].
  - destruct (decide (key' = key)) as [->|Hkey].
    + by rewrite Get_Set_same.
    + by rewrite Set_other_key.
  - unfold Get in *. by rewrite Set_other_client.
Qed.

Lemma set_calls_keeps_found s clientID calls other key :
  (Get s other key).2 = true →
  (Get (set_calls s clientID calls) other key).2 = true.
Proof.
  unfold set_calls. revert s.
  induction calls as [|kv calls IH]; intros s Hfound; simpl; [done|].
  by apply IH, Set_keeps_found.
Qed.

(** X20.  The read loop takes nothing out of the store: a key that was
    found for some client before the loop is found after it, whatever
    lines were read.  Contexts are not cleared by the handler. *)
Theorem handleLines_keeps_keys reads c clientID key :
  (Get (store c) clientID key).2 = true →
  (Get (store (handleLines reads c)) clientID key).2 = true.
Proof.
  intros Hfound.
  induction reads as [|r reads IH] using rev_ind; [done|].
  rewrite handleLines_snoc. unfold handleLine.
  destruct (Parse r.2) as [msg|e]; [|done].
  rewrite handleMessage_eq.
  destruct (decide (Type_ msg = TypePing)); [done|].
  destruct (decide (Type_ msg = TypeContext)); [|done].
  simpl. by apply set_calls_keeps_found.
Qed.

Lemma handleLines_keeps_keys_witness :
  let c := {| id := "A"; store := storeABC; conn := [] |} in
  (Get (store (handleLines [(1%Z, "CONTEXT:x=9;y=2"); (2%Z, "CONTEXT:")] c))
     "A" "x").2 = true.
Proof.
  intros c.
  apply (handleLines_keeps_keys [(1%Z, "CONTEXT:x=9;y=2"); (2%Z, "CONTEXT:")] c).
  reflexivity.
Defined.

End HandlerMore.
